(** * YouTube analysis service: the job store, the pipeline and the cache

    A shallow embedding of [src/analysis/analysis.service.ts]
    (class [AnalysisService]) together with the record types of
    [dto/analysis-result.dto.ts].

    Conventions of the embedding.
    - JavaScript numbers that carry probabilities and time stamps are
      rationals ([Q]); the 32-bit arithmetic of [hashString] is written out
      on [Z].
    - A JavaScript string is a [string]; one character stands for one
      UTF-16 code unit.
    - [Map<string, V>] is a [gmap].  [uuidv4()] is a counter: the n-th
      accepted submission gets the identifier n, which keeps the one
      property the service relies on (identifiers never repeat).
    - What the outside world answers (browser, ffmpeg, speech-to-text,
      detector, image host) is an input of the transition function, one
      label per settled promise.  The service then runs up to its next
      [await] on an external promise.  A promise the service starts
      without awaiting it ([fs.unlink]) settles by a label of its own. *)

From Stdlib Require Import ZArith QArith String Ascii List Lia Lqa.
From stdpp Require Import gmap strings list fin_maps pretty.

Local Open Scope string_scope.

(* ===================================================================== *)
(** ** Data model (dto/analysis-result.dto.ts)                           *)
(* ===================================================================== *)

Inductive Status := st_processing | st_completed | st_error.

Inductive Confidence := high | medium | low.

Record TranscriptSegment := {
  text : string;
  start_time : Q;
  end_time : Q;
  speaker : option string;
  ai_probability : Q;
}.

Record PerplexityMetrics := {
  overall_perplexity : Q;
  average_perplexity : Q;
  burstiness : Q;
}.

Record SentenceStats := {
  total_sentences : nat;
  ai_sentences : nat;
  human_sentences : nat;
  neutral_sentences : Z;
  average_sentence_ai_probability : Q;
}.

Record OverallAnalysis := {
  overall_ai_probability : Q;
  overall_prediction : string;
  confidence_level : Confidence;
  decision_rationale : string;
  perplexity_metrics : PerplexityMetrics;
  sentence_stats : SentenceStats;
}.

(** [AnalysisResultDto]; the field [id] is [job_id] here, and an optional
    field is an [option]. *)
Record AnalysisResultDto := {
  job_id : nat;
  videoUrl : string;
  screenshotPath : string;
  transcript : list TranscriptSegment;
  overallAnalysis : option OverallAnalysis;
  createdAt : Z;
  status : Status;
  error : option string;
}.

(** One element of [transcript.words] or [transcript.segments] as the
    speech-to-text vendor returns it: every property may be missing. *)
Record RawUnit := {
  w_word : option string;
  w_text : option string;
  w_start_time : option Q;
  w_start : option Q;
  w_end_time : option Q;
  w_end : option Q;
  w_speaker : option string;
}.

Record Transcript := {
  t_words : option (list RawUnit);
  t_segments : option (list RawUnit);
}.

#[global] Instance Status_eq_dec : EqDecision Status.
Proof. solve_decision. Defined.

(* ===================================================================== *)
(** ** JavaScript operators used by the service                          *)
(* ===================================================================== *)

Module JS.

(** ToInt32: the signed 32-bit value of an integer. *)
Definition toInt32 (z : Z) : Z := ((z + 2 ^ 31) mod 2 ^ 32 - 2 ^ 31)%Z.

(** [a << n] and [a & b] on numbers. *)
Definition shl (a n : Z) : Z := toInt32 (Z.shiftl (toInt32 a) n).
Definition band (a b : Z) : Z := Z.land (toInt32 a) (toInt32 b).

Definition charCode (c : ascii) : Z := Z.of_N (N_of_ascii c).

Definition digit36 (d : Z) : ascii :=
  if (d <? 10)%Z then ascii_of_N (Z.to_N (48 + d))
  else ascii_of_N (Z.to_N (87 + d)).

Fixpoint digits36 (fuel : nat) (n : Z) (acc : string) : string :=
  match fuel with
  | O => acc
  | S fuel' =>
      let acc' := String (digit36 (n mod 36)) acc in
      if (n / 36 =? 0)%Z then acc' else digits36 fuel' (n / 36) acc'
  end.

(** [n.toString(36)] for an integer [n]; a number below 2^k has at most
    k digits, so the fuel never runs out. *)
Definition toString36 (n : Z) : string :=
  let m := Z.abs n in
  let ds := digits36 (S (Z.to_nat (Z.log2 m))) m "" in
  if (n <? 0)%Z then "-" ++ ds else ds.

(** [a || b] where the operands are strings: the empty string and a
    missing property are falsy. *)
Definition truthy_str (o : option string) : option string :=
  match o with
  | Some s => if String.eqb s "" then None else Some s
  | None => None
  end.

(** [a || b] on numbers: zero and a missing property are falsy. *)
Definition truthy_num (o : option Q) : option Q :=
  match o with
  | Some q => if Qeq_bool q 0 then None else Some q
  | None => None
  end.

Definition or_else {A} (a : option A) (b : A) : A :=
  match a with Some x => x | None => b end.

(** [xs.join(sep)] *)
Definition join (sep : string) (xs : list string) : string :=
  String.concat sep xs.

End JS.

(* ===================================================================== *)
(** ** hashString and the classification cache                           *)
(* ===================================================================== *)

(** One turn of the loop of [hashString]:
    [hash = ((hash << 5) - hash + text.charCodeAt(i)) & 0xffffffff]. *)
Definition hash_step (hash : Z) (c : ascii) : Z :=
  JS.band (JS.shl hash 5 - hash + JS.charCode c) 0xffffffff.

Fixpoint hash_loop (hash : Z) (text : string) : Z :=
  match text with
  | EmptyString => hash
  | String c rest => hash_loop (hash_step hash c) rest
  end.

Definition hashString (text : string) : string :=
  JS.toString36 (hash_loop 0 text).

(** What [axios.post(AI_DETECTION_URL, ...)] settles with: a body whose
    [data.output.label] is read, or anything that makes the [try] block
    throw (network error, timeout, a body without [output]). *)
Inductive DetectorReply :=
| Reply (label : option Z)
| NoReply.

(** [getAIProbability] up to its [await]: either it returns at once, or a
    request for [hash] is on its way. *)
Inductive Lookup :=
| Ready (probability : Q)
| Asked (hash : string).

Definition getAIProbability_start (text : string) (cache : gmap string Q) : Lookup :=
  if (String.length text <? 50)%nat then Ready 0.5%Q
  else
    let hash := hashString text in
    match cache !! hash with
    | Some p => Ready p
    | None => Asked hash
    end.

(** [getAIProbability] from the settled request on. *)
Definition getAIProbability_finish (hash : string) (reply : DetectorReply)
    (cache : gmap string Q) : Q * gmap string Q :=
  match reply with
  | Reply label =>
      let probability := if decide (label = Some 0%Z) then 0.8%Q else 0.2%Q in
      (probability, <[hash := probability]> cache)
  | NoReply => (0.5%Q, cache)
  end.

(** A whole call of [getAIProbability], run without interleaving.  [reply]
    is what the detector answers if it is asked; the third component is the
    list of request bodies sent to the detector by this call. *)
Definition getAIProbability (text : string) (reply : DetectorReply)
    (cache : gmap string Q) : Q * gmap string Q * list string :=
  match getAIProbability_start text cache with
  | Ready p => (p, cache, [])
  | Asked hash =>
      let '(p, cache') := getAIProbability_finish hash reply cache in
      (p, cache', [text])
  end.

(* ===================================================================== *)
(** ** analyzeTranscript and calculateOverallAnalysis                    *)
(* ===================================================================== *)

(** [transcript.words || transcript.segments || []]: an array, even an
    empty one, is truthy. *)
Definition words_of (t : Transcript) : list RawUnit :=
  match t_words t with
  | Some ws => ws
  | None => match t_segments t with Some ss => ss | None => [] end
  end.

(** [w.word || w.text || ''] *)
Definition unit_text (w : RawUnit) : string :=
  JS.or_else (JS.truthy_str (w_word w)) (JS.or_else (JS.truthy_str (w_text w)) "").

Definition joined_text (words : list RawUnit) : string :=
  JS.join " " (map unit_text words).

Definition mk_segment (aiProbability : Q) (word : RawUnit) : TranscriptSegment :=
  {| text := unit_text word;
     start_time := JS.or_else (JS.truthy_num (w_start_time word))
                     (JS.or_else (JS.truthy_num (w_start word)) 0%Q);
     end_time := JS.or_else (JS.truthy_num (w_end_time word))
                   (JS.or_else (JS.truthy_num (w_end word)) 0%Q);
     speaker := JS.truthy_str (w_speaker word);
     ai_probability := aiProbability |}.

(** The last statement of [analyzeTranscript]. *)
Definition segments_of (aiProbability : Q) (words : list RawUnit) : list TranscriptSegment :=
  map (mk_segment aiProbability) words.

(** [analyzeTranscript], run without interleaving; the empty word list
    returns before any classification. *)
Definition analyzeTranscript (t : Transcript) (reply : DetectorReply)
    (cache : gmap string Q) : list TranscriptSegment * gmap string Q * list string :=
  let words := words_of t in
  match words with
  | [] => ([], cache, [])
  | _ =>
      let '(p, cache', sent) := getAIProbability (joined_text words) reply cache in
      (segments_of p words, cache', sent)
  end.

Definition Qlt_bool (x y : Q) : bool := negb (Qle_bool y x).

Definition sum_probability (segments : list TranscriptSegment) : Q :=
  fold_left (fun sum s => (sum + ai_probability s)%Q) segments 0%Q.

Definition count_ai (segments : list TranscriptSegment) : nat :=
  length (List.filter (fun s => Qle_bool 0.7 (ai_probability s)) segments).

Definition count_human (segments : list TranscriptSegment) : nat :=
  length (List.filter (fun s => Qle_bool (ai_probability s) 0.3) segments).

Definition of_nat (n : nat) : Q := inject_Z (Z.of_nat n).

Definition calculateOverallAnalysis (segments : list TranscriptSegment) : OverallAnalysis :=
  let len := length segments in
  let avgProb := (sum_probability segments / of_nat (if decide (len = 0%nat) then 1%nat else len))%Q in
  let aiCount := count_ai segments in
  let humanCount := count_human segments in
  {| overall_ai_probability := avgProb;
     overall_prediction :=
       if Qle_bool 0.7 avgProb then "AI-Generated Content"
       else if Qle_bool 0.5 avgProb then "Mixed Content"
       else "Human-Generated Content";
     confidence_level :=
       if Qlt_bool (of_nat len * 0.8) (of_nat aiCount)
          || Qlt_bool (of_nat len * 0.8) (of_nat humanCount)
       then high else medium;
     decision_rationale :=
       pretty aiCount ++ " AI-like, " ++ pretty humanCount ++ " human-like segments";
     perplexity_metrics :=
       {| overall_perplexity := 0; average_perplexity := 0; burstiness := 0 |};
     sentence_stats :=
       {| total_sentences := len;
          ai_sentences := aiCount;
          human_sentences := humanCount;
          neutral_sentences := Z.of_nat len - Z.of_nat aiCount - Z.of_nat humanCount;
          average_sentence_ai_probability := avgProb |} |}.


(* ===================================================================== *)
(** ** The adapters: captureScreenshot, uploadToImgBB, extractAudio      *)
(* ===================================================================== *)

Definition screenshot_failed_url : string :=
  "https://via.placeholder.com/1280x720/ff4444/ffffff?text=Screenshot+Failed".

Definition upload_failed_url : string :=
  "https://via.placeholder.com/1280x720/ff4444/ffffff?text=Upload+Failed".

(** How the request of [uploadToImgBB] ends: [data.success] with a URL, or
    a thrown error (a failed request, or the [throw new Error] of the
    function itself when [data.success] is falsy). *)
Inductive UploadOutcome :=
| Uploaded (url : string)
| UploadFailed (msg : string).

(** How the [try] block of [captureScreenshot] ends: the browser produced
    a picture and [uploadToImgBB] was called, or one of
    launch / newPage / goto / screenshot threw. *)
Inductive CaptureOutcome :=
| Captured (upload : UploadOutcome)
| CaptureFailed (msg : string).

Definition uploadToImgBB (o : UploadOutcome) : string :=
  match o with
  | Uploaded url => url
  | UploadFailed _ => upload_failed_url
  end.

Definition captureScreenshot (o : CaptureOutcome) : string :=
  match o with
  | Captured upload => uploadToImgBB upload
  | CaptureFailed _ => screenshot_failed_url
  end.

(** ffmpeg ends with ['end'] or with ['error']. *)
Inductive AudioOutcome :=
| AudioSaved
| AudioError (msg : string).

(** [elevenLabsClient.speechToText.convert] (or the [readFile] before it)
    returns or throws. *)
Inductive SpeechOutcome :=
| SpeechText (t : Transcript)
| SpeechError (msg : string).

(** [join(this.uploadsDir, `${id}.wav`)], relative to the working
    directory. *)
Definition outputPath (id : nat) : string := "temp/" ++ pretty id ++ ".wav".

(* ===================================================================== *)
(** ** Promises and the suspended runs of processVideo                   *)
(* ===================================================================== *)

Inductive Promise (A : Type) :=
| Pending
| Fulfilled (v : A)
| Rejected (msg : string).
Arguments Pending {A}.
Arguments Fulfilled {A} v.
Arguments Rejected {A} msg.

(** [Promise.all([p, q])]: rejected as soon as one of the two is rejected,
    fulfilled once both are, pending otherwise. *)
Definition promise_all {A B} (p : Promise A) (q : Promise B) : Promise (A * B) :=
  match p, q with
  | Rejected msg, _ => Rejected msg
  | _, Rejected msg => Rejected msg
  | Fulfilled a, Fulfilled b => Fulfilled (a, b)
  | _, _ => Pending
  end.

Definition settled {A} (p : Promise A) : bool :=
  match p with Pending => false | _ => true end.

(** Where a call of [processVideo] is suspended. *)
Inductive Phase :=
| AtBarrier
    (* await Promise.all([captureScreenshot, extractAudio]) *)
| AtTranscribe (audioPath : string)
    (* await this.transcribeAudio(audioPath) *)
| AtClassify (audioPath : string) (words : list RawUnit) (hash : string)
    (* await axios.post(...) inside getAIProbability inside analyzeTranscript *)
| Returned.

(** One call of [processVideo]: its suspension point and the two promises
    it started. *)
Record Run := {
  phase : Phase;
  shot : Promise string;
  audio : Promise string;
}.

(** What the service did to the outside world, oldest entry last. *)
Inductive Event :=
| EvClassify (id : nat) (text : string)
    (* analyzeTranscript of job [id] calls getAIProbability(text) *)
| EvRequest (id : nat) (text : string)
    (* axios.post(AI_DETECTION_URL, { sentence: text }) *)
| EvUnlink (path : string).
    (* fs.unlink(path) *)

Record Service := {
  results : gmap nat AnalysisResultDto;  (* this.results *)
  cache : gmap string Q;                 (* this.cache *)
  runs : gmap nat Run;                   (* calls of processVideo *)
  files : gset string;                   (* files under this.uploadsDir *)
  log : list Event;
  next_id : nat;                         (* uuidv4 *)
}.

Definition init : Service :=
  {| results := ∅; cache := ∅; runs := ∅; files := ∅; log := []; next_id := 0 |}.

(** *** Assignments to a job record *)

(* result.screenshotPath = screenshotUrl *)
Definition write_screenshot (screenshotUrl : string) (r : AnalysisResultDto) : AnalysisResultDto :=
  {| job_id := job_id r; videoUrl := videoUrl r; screenshotPath := screenshotUrl;
     transcript := transcript r; overallAnalysis := overallAnalysis r;
     createdAt := createdAt r; status := status r; error := error r |}.

(* result.transcript = segments;
   result.overallAnalysis = this.calculateOverallAnalysis(segments);
   result.status = 'completed' *)
Definition write_completed (segments : list TranscriptSegment) (r : AnalysisResultDto) : AnalysisResultDto :=
  {| job_id := job_id r; videoUrl := videoUrl r; screenshotPath := screenshotPath r;
     transcript := segments;
     overallAnalysis := Some (calculateOverallAnalysis segments);
     createdAt := createdAt r; status := st_completed; error := error r |}.

(* result.status = 'error'; result.error = error.message *)
Definition write_error (message : string) (r : AnalysisResultDto) : AnalysisResultDto :=
  {| job_id := job_id r; videoUrl := videoUrl r; screenshotPath := screenshotPath r;
     transcript := transcript r; overallAnalysis := overallAnalysis r;
     createdAt := createdAt r; status := st_error; error := Some message |}.

Definition set_phase (ph : Phase) (rn : Run) : Run :=
  {| phase := ph; shot := shot rn; audio := audio rn |}.
Definition set_shot (p : Promise string) (rn : Run) : Run :=
  {| phase := phase rn; shot := p; audio := audio rn |}.
Definition set_audio (p : Promise string) (rn : Run) : Run :=
  {| phase := phase rn; shot := shot rn; audio := p |}.

(** *** processVideo, piece by piece *)

(** The [catch] block of [processVideo]; the run ends. *)
Definition caught (id : nat) (message : string) (rn : Run) (s : Service) : Service :=
  {| results := alter (write_error message) id (results s);
     cache := cache s;
     runs := <[id := set_phase Returned rn]> (runs s);
     files := files s; log := log s; next_id := next_id s |}.

(** [fs.unlink(path)] has been called at some point of the log. *)
Definition unlinked (path : string) (lg : list Event) : bool :=
  existsb (fun e => match e with
                    | EvUnlink p => bool_decide (p = path)
                    | _ => false
                    end) lg.

(** Lines 95-99: the three assignments and [fs.unlink(audioPath)]; the run
    ends.  The deletion is started, not awaited: the file is still on disk
    when the record says [completed], and leaves it only if and when the
    deletion settles well (see [UnlinkSettled] below). *)
Definition finish (id : nat) (audioPath : string) (segments : list TranscriptSegment)
    (rn : Run) (s : Service) : Service :=
  {| results := alter (write_completed segments) id (results s);
     cache := cache s;
     runs := <[id := set_phase Returned rn]> (runs s);
     files := files s;
     log := EvUnlink audioPath :: log s;
     next_id := next_id s |}.

(** The promise of [fs.unlink(audioPath).catch(() => {})] of job [id]
    settles: the file is gone if the deletion worked; a failure is
    swallowed and leaves everything as it is.  Nothing happens for a job
    that never called [fs.unlink]. *)
Definition unlink_settled (id : nat) (removed : bool) (s : Service) : Service :=
  if removed && unlinked (outputPath id) (log s)
  then {| results := results s; cache := cache s; runs := runs s;
          files := files s ∖ {[outputPath id]};
          log := log s; next_id := next_id s |}
  else s.

(** A promise of the barrier has settled ([rn] is the run with that
    promise updated).  A run suspended at the barrier resumes as soon as
    [Promise.all] is no longer pending; any other run only records the
    settled promise. *)
Definition resume_barrier (id : nat) (rn : Run) (s : Service) : Service :=
  match phase rn with
  | AtBarrier =>
      match promise_all (shot rn) (audio rn) with
      | Pending =>
          {| results := results s; cache := cache s; runs := <[id := rn]> (runs s);
             files := files s; log := log s; next_id := next_id s |}
      | Rejected message => caught id message rn s
      | Fulfilled (screenshotUrl, audioPath) =>
          {| results := alter (write_screenshot screenshotUrl) id (results s);
             cache := cache s;
             runs := <[id := set_phase (AtTranscribe audioPath) rn]> (runs s);
             files := files s; log := log s; next_id := next_id s |}
      end
  | _ =>
      {| results := results s; cache := cache s; runs := <[id := rn]> (runs s);
         files := files s; log := log s; next_id := next_id s |}
  end.

(** Line 93, [analyzeTranscript(transcript)], up to the request to the
    detector if one is sent. *)
Definition resume_transcribed (id : nat) (audioPath : string) (t : Transcript)
    (rn : Run) (s : Service) : Service :=
  let words := words_of t in
  match words with
  | [] => finish id audioPath [] rn s
  | _ =>
      let text := joined_text words in
      let s1 :=
        {| results := results s; cache := cache s; runs := runs s; files := files s;
           log := EvClassify id text :: log s; next_id := next_id s |} in
      match getAIProbability_start text (cache s) with
      | Ready aiProbability => finish id audioPath (segments_of aiProbability words) rn s1
      | Asked hash =>
          {| results := results s; cache := cache s;
             runs := <[id := set_phase (AtClassify audioPath words hash) rn]> (runs s);
             files := files s;
             log := EvRequest id text :: log s1;
             next_id := next_id s |}
      end
  end.

(** The detector has answered: the rest of [getAIProbability], then the
    rest of [analyzeTranscript] and of [processVideo]. *)
Definition resume_classified (id : nat) (audioPath : string) (words : list RawUnit)
    (hash : string) (reply : DetectorReply) (rn : Run) (s : Service) : Service :=
  let '(aiProbability, cache') := getAIProbability_finish hash reply (cache s) in
  finish id audioPath (segments_of aiProbability words) rn
    {| results := results s; cache := cache'; runs := runs s; files := files s;
       log := log s; next_id := next_id s |}.

(** [analyzeVideo(dto)], with the synchronous start of [processVideo]:
    both acquisition tasks are started before the first [await].  [valid]
    is the answer of [ytdl.validateURL(dto.url)]; a rejected URL throws
    before anything is stored.  [processVideo] catches every failure in
    its own [try] block, so the handler that [analyzeVideo] attaches with
    [.catch] has nothing to do. *)
Definition analyzeVideo (url : string) (valid : bool) (now : Z) (s : Service) : Service :=
  if valid then
    let id := next_id s in
    {| results :=
         <[id := {| job_id := id; videoUrl := url; screenshotPath := "";
                    transcript := []; overallAnalysis := None; createdAt := now;
                    status := st_processing; error := None |}]> (results s);
       cache := cache s;
       runs := <[id := {| phase := AtBarrier; shot := Pending; audio := Pending |}]> (runs s);
       files := files s; log := log s;
       next_id := S id |}
  else s.

(* ===================================================================== *)
(** ** The transition function                                           *)
(* ===================================================================== *)

Inductive Label :=
| Submit (url : string) (valid : bool) (now : Z)
| ThumbnailSettled (id : nat) (o : CaptureOutcome)
| AudioSettled (id : nat) (o : AudioOutcome)
| Transcribed (id : nat) (o : SpeechOutcome)
| Classified (id : nat) (reply : DetectorReply)
| UnlinkSettled (id : nat) (removed : bool).

Definition step (s : Service) (l : Label) : Service :=
  match l with
  | Submit url valid now => analyzeVideo url valid now s
  | ThumbnailSettled id o =>
      match runs s !! id with
      | Some rn =>
          match shot rn with
          | Pending => resume_barrier id (set_shot (Fulfilled (captureScreenshot o)) rn) s
          | _ => s
          end
      | None => s
      end
  | AudioSettled id o =>
      match runs s !! id with
      | Some rn =>
          match audio rn with
          | Pending =>
              match o with
              | AudioSaved =>
                  resume_barrier id (set_audio (Fulfilled (outputPath id)) rn)
                    {| results := results s; cache := cache s; runs := runs s;
                       files := files s ∪ {[outputPath id]};
                       log := log s; next_id := next_id s |}
              | AudioError msg =>
                  resume_barrier id (set_audio (Rejected msg) rn) s
              end
          | _ => s
          end
      | None => s
      end
  | Transcribed id o =>
      match runs s !! id with
      | Some rn =>
          match phase rn with
          | AtTranscribe audioPath =>
              match o with
              | SpeechText t => resume_transcribed id audioPath t rn s
              | SpeechError msg => caught id msg rn s
              end
          | _ => s
          end
      | None => s
      end
  | Classified id reply =>
      match runs s !! id with
      | Some rn =>
          match phase rn with
          | AtClassify audioPath words hash =>
              resume_classified id audioPath words hash reply rn s
          | _ => s
          end
      | None => s
      end
  | UnlinkSettled id removed => unlink_settled id removed s
  end.

(** The service after a sequence of events, starting from [s]. *)
Definition run (s : Service) (ls : list Label) : Service := fold_left step ls s.

(** The decision of [getResult] once its polling loop is over. *)
Inductive Answer :=
| NotFound                         (* 'Analysis not found' *)
| TimedOut                         (* 'Analysis timeout' *)
| Failed (detail : option string)  (* `Analysis failed: ${result.error}` *)
| Found (r : AnalysisResultDto).

Definition getResult (s : Service) (id : nat) : Answer :=
  match results s !! id with
  | None => NotFound
  | Some r =>
      match status r with
      | st_processing => TimedOut
      | st_error => Failed (error r)
      | st_completed => Found r
      end
  end.

(* ===================================================================== *)
(** ** Observations on the log                                           *)
(* ===================================================================== *)

(** The entries of the log that belong to job [id]: its calls of
    [getAIProbability], its requests to the detector and the deletion of
    its audio file. *)
Definition concerns (id : nat) (e : Event) : bool :=
  match e with
  | EvClassify i _ => bool_decide (i = id)
  | EvRequest i _ => bool_decide (i = id)
  | EvUnlink p => bool_decide (p = outputPath id)
  end.

Definition job_log (id : nat) (lg : list Event) : list Event :=
  List.filter (concerns id) lg.

(** Texts job [id] passed to [getAIProbability], and texts it posted to the
    detector. *)
Definition classify_calls (id : nat) (lg : list Event) : list string :=
  flat_map (fun e => match e with
                     | EvClassify i t => if decide (i = id) then [t] else []
                     | _ => []
                     end) lg.

Definition detector_requests (id : nat) (lg : list Event) : list string :=
  flat_map (fun e => match e with
                     | EvRequest i t => if decide (i = id) then [t] else []
                     | _ => []
                     end) lg.

(** The three values [getAIProbability] can produce. *)
Definition three_valued (p : Q) : Prop := p = 0.2%Q ∨ p = 0.8%Q ∨ p = 0.5%Q.

Definition cache_ok (c : gmap string Q) : Prop :=
  ∀ h p, c !! h = Some p → p = 0.8%Q ∨ p = 0.2%Q.

(** The two sentinel references of the thumbnail adapter. *)
Definition is_placeholder (ref : string) : Prop :=
  ref = screenshot_failed_url ∨ ref = upload_failed_url.

Definition capture_failed (o : CaptureOutcome) : Prop :=
  match o with
  | CaptureFailed _ => True
  | Captured (UploadFailed _) => True
  | Captured (Uploaded _) => False
  end.

(* ===================================================================== *)
(** ** The invariant of the store                                        *)
(* ===================================================================== *)

Definition untouched (r : AnalysisResultDto) : Prop :=
  status r = st_processing ∧ error r = None ∧
  transcript r = [] ∧ overallAnalysis r = None.

(** What the log of a completed job looks like, newest entry first. *)
Definition completed_log (id : nat) (ws : list RawUnit) (jl : list Event) : Prop :=
  (ws = [] ∧ jl = [EvUnlink (outputPath id)])
  ∨ (ws ≠ [] ∧
     (jl = [EvUnlink (outputPath id); EvClassify id (joined_text ws)]
      ∨ jl = [EvUnlink (outputPath id); EvRequest id (joined_text ws);
              EvClassify id (joined_text ws)])).

(** A job record, the run that writes it, the job's part of the log and
    the files on disk fit together in one of six ways. *)
Inductive job_ok (id : nat) (r : AnalysisResultDto) (rn : Run)
    (jl : list Event) (fs : gset string) : Prop :=
| ok_barrier :
    phase rn = AtBarrier → untouched r → screenshotPath r = "" →
    promise_all (shot rn) (audio rn) = Pending →
    (∀ p, audio rn = Fulfilled p → p = outputPath id ∧ outputPath id ∈ fs) →
    jl = [] →
    job_ok id r rn jl fs
| ok_transcribe :
    phase rn = AtTranscribe (outputPath id) → untouched r →
    shot rn = Fulfilled (screenshotPath r) → audio rn = Fulfilled (outputPath id) →
    jl = [] → outputPath id ∈ fs →
    job_ok id r rn jl fs
| ok_classify ws :
    phase rn = AtClassify (outputPath id) ws (hashString (joined_text ws)) →
    untouched r →
    shot rn = Fulfilled (screenshotPath r) → audio rn = Fulfilled (outputPath id) →
    ws ≠ [] →
    jl = [EvRequest id (joined_text ws); EvClassify id (joined_text ws)] →
    outputPath id ∈ fs →
    job_ok id r rn jl fs
| ok_failed_audio m :
    phase rn = Returned → status r = st_error → error r = Some m →
    transcript r = [] → overallAnalysis r = None → screenshotPath r = "" →
    audio rn = Rejected m → jl = [] →
    job_ok id r rn jl fs
| ok_failed_speech m :
    phase rn = Returned → status r = st_error → error r = Some m →
    transcript r = [] → overallAnalysis r = None →
    shot rn = Fulfilled (screenshotPath r) → audio rn = Fulfilled (outputPath id) →
    jl = [] → outputPath id ∈ fs →
    job_ok id r rn jl fs
| ok_completed p ws :
    phase rn = Returned → status r = st_completed → error r = None →
    transcript r = segments_of p ws →
    overallAnalysis r = Some (calculateOverallAnalysis (transcript r)) →
    three_valued p →
    shot rn = Fulfilled (screenshotPath r) → audio rn = Fulfilled (outputPath id) →
    completed_log id ws jl →
    job_ok id r rn jl fs.

Record inv (s : Service) : Prop := {
  inv_cache : cache_ok (cache s);
  inv_job : ∀ id r, results s !! id = Some r →
      job_id r = id ∧
      ∃ rn, runs s !! id = Some rn ∧ job_ok id r rn (job_log id (log s)) (files s);
  inv_run : ∀ id, is_Some (runs s !! id) → is_Some (results s !! id);
  inv_next : ∀ id : nat, (next_id s ≤ id)%nat →
      results s !! id = None ∧ job_log id (log s) = [];
}.

(* ===================================================================== *)
(** ** Properties as the specification words them, and sample inputs     *)
(* ===================================================================== *)

(** An event that is not addressed to job [id]. *)
Definition foreign (id : nat) (l : Label) : Prop :=
  match l with
  | Submit _ _ _ => True
  | ThumbnailSettled j _ => j ≠ id
  | AudioSettled j _ => j ≠ id
  | Transcribed j _ => j ≠ id
  | Classified j _ => j ≠ id
  | UnlinkSettled j _ => j ≠ id
  end.

(** Two calls of [getAIProbability] with the same text, the second after
    the first has returned: both results and the requests each call sent. *)
Definition twice (text : string) (reply1 reply2 : DetectorReply)
    (cache : gmap string Q) : Q * Q * list string * list string :=
  let '(p1, cache1, sent1) := getAIProbability text reply1 cache in
  let '(p2, _, sent2) := getAIProbability text reply2 cache1 in
  (p1, p2, sent1, sent2).


(** The barrier in the words of the specification: a run that is past the
    acquisition step has both acquisition promises settled. *)
Definition barrier_as_specified (s : Service) : Prop :=
  ∀ (id : nat) rn, runs s !! id = Some rn → phase rn ≠ AtBarrier →
    settled (shot rn) = true ∧ settled (audio rn) = true.

(** Job [id] of state [s] has record [r] and run [rn]. *)
Definition at_job (s : Service) (id : nat) (r : AnalysisResultDto) (rn : Run) : Prop :=
  inv s ∧ (id < next_id s)%nat ∧
  results s !! id = Some r ∧ runs s !! id = Some rn.

(** Sample inputs. *)
Definition spoken (w : string) : RawUnit :=
  {| w_word := Some w; w_text := None; w_start_time := None; w_start := None;
     w_end_time := None; w_end := None; w_speaker := None |}.

Definition scored (p : Q) : TranscriptSegment :=
  {| text := "word"; start_time := 0; end_time := 0; speaker := None;
     ai_probability := p |}.

Definition silence : Transcript := {| t_words := Some []; t_segments := None |}.

Definition speech : Transcript :=
  {| t_words := Some [spoken "hello"; spoken "world"]; t_segments := None |}.

Definition long_text : string :=
  "the quick brown fox jumps over the lazy dog and runs away".

Definition silent_run : list Label :=
  [Submit "https://youtu.be/v" true 0;
   ThumbnailSettled 0 (Captured (Uploaded "https://i.ibb.co/v.png"));
   AudioSettled 0 AudioSaved;
   Transcribed 0 (SpeechText silence)].

Definition spoken_run : list Label :=
  [Submit "https://youtu.be/v" true 0;
   ThumbnailSettled 0 (Captured (Uploaded "https://i.ibb.co/v.png"));
   AudioSettled 0 AudioSaved;
   Transcribed 0 (SpeechText speech)].

Definition speech_failure_run : list Label :=
  [Submit "https://youtu.be/v" true 0;
   ThumbnailSettled 0 (Captured (Uploaded "https://i.ibb.co/v.png"));
   AudioSettled 0 AudioSaved;
   Transcribed 0 (SpeechError "speech-to-text unavailable")].

Definition audio_failure_run : list Label :=
  [Submit "https://youtu.be/v" true 0;
   AudioSettled 0 (AudioError "ffmpeg exited with code 1")].

(* ===================================================================== *)
(** ** Readings used to state properties of hashString                   *)
(* ===================================================================== *)

(** The hash as plain arithmetic, without wrap-around: [31 * h + c] at
    every character. *)
Fixpoint hash_poly (h : Z) (text : string) : Z :=
  match text with
  | EmptyString => h
  | String c rest => hash_poly (31 * h + JS.charCode c) rest
  end.

(** Reading a base-36 numeral back ([parseInt(s, 36)] on the strings that
    [toString(36)] writes). *)
Definition digit36_value (c : ascii) : Z :=
  let n := Z.of_N (N_of_ascii c) in
  if (n <? 58)%Z then (n - 48)%Z else (n - 87)%Z.

Fixpoint read36 (v : Z) (s : string) : Z :=
  match s with
  | EmptyString => v
  | String c rest => read36 (36 * v + digit36_value c) rest
  end.

Definition parse36 (s : string) : Z :=
  match s with
  | EmptyString => 0%Z
  | String c rest =>
      if Ascii.eqb c "-" then (- read36 0 rest)%Z else read36 0 s
  end.

Definition int32 (z : Z) : Prop := (- 2 ^ 31 <= z < 2 ^ 31)%Z.

(* ===================================================================== *)
(** ** More sample inputs and observations                               *)
(* ===================================================================== *)

(** A request to the detector carries a text of at least 50 characters. *)
Definition request_ok (e : Event) : Prop :=
  match e with
  | EvRequest _ t => (50 <= String.length t)%nat
  | _ => True
  end.

(** A transcript whose [words] array is empty while [segments] is not. *)
Definition words_empty_segments_full : Transcript :=
  {| t_words := Some []; t_segments := Some [spoken "hello"; spoken "world"] |}.

(** A transcript long enough to be sent to the detector. *)
Definition long_speech : Transcript :=
  {| t_words := Some [spoken long_text; spoken "indeed"]; t_segments := None |}.

Definition long_run : list Label :=
  [Submit "https://youtu.be/v" true 0;
   ThumbnailSettled 0 (Captured (Uploaded "https://i.ibb.co/v.png"));
   AudioSettled 0 AudioSaved;
   Transcribed 0 (SpeechText long_speech)].

(** Two records with the same identifier, source URL and creation time. *)
Definition same_identity (r r' : AnalysisResultDto) : Prop :=
  job_id r' = job_id r ∧ videoUrl r' = videoUrl r ∧ createdAt r' = createdAt r.

(* ===================================================================== *)
(** ** getResult with its polling loop, and the controller               *)
(* ===================================================================== *)

(** The three [if]s after the loop of [getResult], on the record the call
    holds. *)
Definition answer (result : AnalysisResultDto) : Answer :=
  match status result with
  | st_processing => TimedOut
  | st_error => Failed (error result)
  | st_completed => Found result
  end.

(** The loop of [getResult].  [now] is [Date.now()] at this evaluation of
    the loop condition and [s] the service at that moment; every element
    of [sleeps] is one [await new Promise(resolve => setTimeout(resolve,
    1000))]: the events that reached the service meanwhile and the clock
    afterwards.  [held] is the record object the call obtained at its
    start; its fields are read in the current store.  [None]: the call is
    still waiting when [sleeps] ends. *)
Fixpoint getResult_wait (id : nat) (startTime : Z) (held : AnalysisResultDto)
    (now : Z) (s : Service) (sleeps : list (list Label * Z)) : option Answer :=
  let result := default held (results s !! id) in
  if bool_decide (status result = st_processing) && (now - startTime <? 180000)%Z
  then
    match sleeps with
    | [] => None
    | (events, now') :: rest =>
        getResult_wait id startTime result now' (run s events) rest
    end
  else Some (answer result).

(** [getResult(id)] called at time [startTime] in state [s]; the first
    check of the loop happens at once, at [startTime]. *)
Definition getResult_call (id : nat) (startTime : Z) (s : Service)
    (sleeps : list (list Label * Z)) : option Answer :=
  match results s !! id with
  | None => Some NotFound
  | Some result => getResult_wait id startTime result startTime s sleeps
  end.

(** Every sleep lasts at least 1000 ms. *)
Fixpoint ticking (now : Z) (sleeps : list (list Label * Z)) : Prop :=
  match sleeps with
  | [] => True
  | (_, now') :: rest => (now + 1000 <= now')%Z ∧ ticking now' rest
  end.

(** The events of the first [k] sleeps. *)
Definition events_of (k : nat) (sleeps : list (list Label * Z)) : list Label :=
  concat (map fst (take k sleeps)).

(** The clock at the check that follows the first [k] sleeps. *)
Fixpoint clock_at (k : nat) (now : Z) (sleeps : list (list Label * Z)) : Z :=
  match k, sleeps with
  | S k', (_, now') :: rest => clock_at k' now' rest
  | _, _ => now
  end.

(** What a handler of the controller sends back: a body, or the
    [BadRequestException] it throws, with its message. *)
Inductive Response (A : Type) :=
| Ok (body : A)
| BadRequest (message : string).
Arguments Ok {A} body.
Arguments BadRequest {A} message.

(** [AnalysisController.getResult]: the record, or the message of the
    exception of the service. *)
Definition controller_getResult (a : Answer) : Response AnalysisResultDto :=
  match a with
  | Found r => Ok r
  | NotFound => BadRequest "Analysis not found"
  | TimedOut => BadRequest "Analysis timeout"
  | Failed detail => BadRequest ("Analysis failed: " ++ default "undefined" detail)
  end.

(** [AnalysisController.getStatus]: [{ status: result.status, error:
    result.error }] of what [getResult] returns. *)
Definition controller_getStatus (a : Answer) : Response (Status * option string) :=
  match controller_getResult a with
  | Ok result => Ok (status result, error result)
  | BadRequest message => BadRequest message
  end.

(** The probability [getAIProbability] derives from a reply of the
    detector: [data.output.label === 0 ? 0.8 : 0.2]. *)
Definition label_probability (label : option Z) : Q :=
  if decide (label = Some 0%Z) then 0.8%Q else 0.2%Q.

(** Two jobs submitted together, both past the acquisition. *)
Definition two_jobs_run : list Label :=
  [Submit "https://youtu.be/a" true 0;
   Submit "https://youtu.be/b" true 1;
   ThumbnailSettled 0 (Captured (Uploaded "https://i.ibb.co/a.png"));
   ThumbnailSettled 1 (Captured (Uploaded "https://i.ibb.co/b.png"));
   AudioSettled 0 AudioSaved;
   AudioSettled 1 AudioSaved].

(** How far a run of [processVideo] has come. *)
Definition phase_rank (ph : Phase) : nat :=
  match ph with
  | AtBarrier => 0
  | AtTranscribe _ => 1
  | AtClassify _ _ _ => 2
  | Returned => 3
  end.

(** A run that is at least as far as another one and has kept the
    promises that were settled. *)
Definition run_advanced (rn rn' : Run) : Prop :=
  (phase_rank (phase rn) <= phase_rank (phase rn'))%nat ∧
  (shot rn ≠ Pending → shot rn' ≠ Pending) ∧
  (audio rn ≠ Pending → audio rn' ≠ Pending).

(* ===================================================================== *)
(** ** The embedding on concrete values                                  *)
(* ===================================================================== *)

Example hashString_abc : hashString "abc" = "22ci".
Proof. reflexivity. Qed.

Example toInt32_mask : JS.toInt32 0xffffffff = (-1)%Z.
Proof. reflexivity. Qed.

(** The loop of [hashString] wraps to negative values, and [toString(36)]
    then writes a sign. *)
Example hashString_wraps :
  hash_loop 0 "polygenelubricants" = (-2147483648)%Z ∧
  hashString "polygenelubricants" = "-zik0zk".
Proof. split; reflexivity. Qed.

Example aggregator_mixed :
  let a := calculateOverallAnalysis [scored 0.9; scored 0.95; scored 0.1] in
  ai_sentences (sentence_stats a) = 2%nat ∧
  human_sentences (sentence_stats a) = 1%nat ∧
  neutral_sentences (sentence_stats a) = 0%Z ∧
  (overall_ai_probability a == 0.65)%Q ∧
  overall_prediction a = "Mixed Content" ∧
  confidence_level a = medium ∧
  decision_rationale a = "2 AI-like, 1 human-like segments".
Proof. vm_compute. repeat split. Qed.

Example aggregator_all_ai :
  let a := calculateOverallAnalysis (repeat (scored 0.9) 10) in
  confidence_level a = high ∧ overall_prediction a = "AI-Generated Content".
Proof. vm_compute. split; reflexivity. Qed.

Example long_text_length : String.length long_text = 57%nat.
Proof. reflexivity. Qed.

(* ===================================================================== *)
(** ** Lemmas on strings, paths and the log                              *)
(* ===================================================================== *)

Lemma string_app_length (a b : string) :
  String.length (a ++ b) = String.length a + String.length b.
Proof. induction a as [|c a IH]; simpl; [done | by rewrite IH]. Qed.

Lemma string_app_inv_tail (a b t : string) : a ++ t = b ++ t → a = b.
Proof.
  revert b. induction a as [|c a IH]; intros [|d b] H.
  - done.
  - apply (f_equal String.length) in H.
    rewrite !string_app_length in H. simpl in H. lia.
  - apply (f_equal String.length) in H.
    rewrite !string_app_length in H. simpl in H. lia.
  - simpl in H. injection H as -> H. f_equal. by apply IH.
Qed.

Lemma outputPath_inj (i j : nat) : outputPath i = outputPath j → i = j.
Proof.
  unfold outputPath. intros H.
  apply (inj (String.app "temp/")) in H.
  apply string_app_inv_tail in H.
  by apply (inj pretty) in H.
Qed.

Lemma job_log_cons id e lg :
  job_log id (e :: lg) = if concerns id e then e :: job_log id lg else job_log id lg.
Proof. reflexivity. Qed.

Ltac log_cases IH :=
  simpl; repeat case_bool_decide; simpl; repeat case_decide;
  rewrite ?IH; simpl; congruence.

Lemma classify_calls_job_log id lg :
  classify_calls id (job_log id lg) = classify_calls id lg.
Proof.
  induction lg as [|e lg IH]; [done|].
  rewrite job_log_cons. destruct e as [i t|i t|p]; log_cases IH.
Qed.

Lemma detector_requests_job_log id lg :
  detector_requests id (job_log id lg) = detector_requests id lg.
Proof.
  induction lg as [|e lg IH]; [done|].
  rewrite job_log_cons. destruct e as [i t|i t|p]; log_cases IH.
Qed.

Lemma unlinked_job_log id lg :
  unlinked (outputPath id) (job_log id lg) = unlinked (outputPath id) lg.
Proof.
  induction lg as [|e lg IH]; [done|].
  rewrite job_log_cons. destruct e as [i t|i t|p]; log_cases IH.
Qed.

Lemma job_ok_files id r rn jl (fs fs' : gset string) :
  (outputPath id ∈ fs → outputPath id ∈ fs') →
  job_ok id r rn jl fs → job_ok id r rn jl fs'.
Proof.
  intros Hfs [].
  - apply ok_barrier; auto. intros q Hq.
    match goal with
    | H : ∀ p, audio rn = Fulfilled p → _ |- _ => destruct (H q Hq); auto
    end.
  - apply ok_transcribe; auto.
  - eapply ok_classify; eauto.
  - eapply ok_failed_audio; eauto.
  - eapply ok_failed_speech; eauto.
  - eapply ok_completed; eauto.
Qed.

(* ===================================================================== *)
(** ** The invariant holds in every reachable state                      *)
(* ===================================================================== *)

Lemma inv_init : inv init.
Proof.
  split; simpl.
  - intros h p H. by rewrite lookup_empty in H.
  - intros id r H. by rewrite lookup_empty in H.
  - intros id [rn H]. by rewrite lookup_empty in H.
  - intros id _. by rewrite lookup_empty.
Qed.

(** A transition that touches one job only: everything about the other
    jobs is carried over from the state before. *)
Lemma inv_frame (s s' : Service) (id : nat) (r : AnalysisResultDto) (rn : Run) :
  inv s →
  (∀ j, j ≠ id → results s' !! j = results s !! j) →
  (∀ j, j ≠ id → runs s' !! j = runs s !! j) →
  (∀ j, j ≠ id → job_log j (log s') = job_log j (log s)) →
  (∀ j, j ≠ id → outputPath j ∈ files s → outputPath j ∈ files s') →
  (next_id s ≤ next_id s')%nat → (id < next_id s')%nat →
  cache_ok (cache s') →
  results s' !! id = Some r → runs s' !! id = Some rn → job_id r = id →
  job_ok id r rn (job_log id (log s')) (files s') →
  inv s'.
Proof.
  intros [Hc Hj Hr Hn] Fres Frun Flog Ffiles Hle Hlt Hc' Hres Hrun Hid Hok.
  split.
  - exact Hc'.
  - intros j r0 Hj0. destruct (decide (j = id)) as [->|Hne].
    + rewrite Hres in Hj0. injection Hj0 as <-. eauto.
    + rewrite Fres in Hj0 by done.
      destruct (Hj _ _ Hj0) as [Hjid [rn0 [Hrn0 Hok0]]].
      split; [done|]. exists rn0. rewrite Frun, Flog by done.
      split; [done|]. eapply job_ok_files; [|exact Hok0]. by apply Ffiles.
  - intros j Hj0. destruct (decide (j = id)) as [->|Hne].
    + by rewrite Hres.
    + rewrite Frun in Hj0 by done. rewrite Fres by done. by apply Hr.
  - intros j Hj0.
    assert (j ≠ id) by lia.
    rewrite Fres, Flog by done. apply Hn. lia.
Qed.

Lemma in_store_lt s (id : nat) r : inv s → results s !! id = Some r → (id < next_id s)%nat.
Proof.
  intros Hinv Hr. destruct (decide (id < next_id s)%nat) as [|Hge]; [done|].
  destruct (inv_next s Hinv id) as [Hnone _]; [lia | congruence].
Qed.

Ltac frame_side :=
  simpl; intros;
  rewrite ?lookup_alter_ne, ?lookup_insert_ne by done;
  repeat (rewrite bool_decide_eq_false_2
            by first [congruence | intros ?%outputPath_inj; congruence]);
  try done.

Lemma path_stays (fs : gset string) id j :
  j ≠ id → outputPath j ∈ fs → outputPath j ∈ fs ∖ {[outputPath id]}.
Proof.
  intros Hne Hin. apply elem_of_difference. split; [done|].
  rewrite elem_of_singleton. intros H. by apply outputPath_inj in H.
Qed.

Lemma caught_inv s id r rn m :
  inv s → results s !! id = Some r → job_id r = id →
  job_ok id (write_error m r) (set_phase Returned rn) (job_log id (log s)) (files s) →
  inv (caught id m rn s).
Proof.
  intros Hinv Hr Hid Hok.
  apply (inv_frame s _ id (write_error m r) (set_phase Returned rn)); try frame_side.
  - by apply (in_store_lt s id r).
  - by apply inv_cache.
  - by rewrite lookup_alter_eq, Hr.
  - by rewrite lookup_insert_eq.
Qed.

Lemma finish_inv s id r rn segs :
  inv s → results s !! id = Some r → job_id r = id →
  job_ok id (write_completed segs r) (set_phase Returned rn)
    (EvUnlink (outputPath id) :: job_log id (log s)) (files s) →
  inv (finish id (outputPath id) segs rn s).
Proof.
  intros Hinv Hr Hid Hok.
  apply (inv_frame s _ id (write_completed segs r) (set_phase Returned rn)); try frame_side.
  - by apply (in_store_lt s id r).
  - by apply inv_cache.
  - by rewrite lookup_alter_eq, Hr.
  - by rewrite lookup_insert_eq.
  - by rewrite bool_decide_eq_true_2.
Qed.

Lemma job_of_run s (id : nat) rn :
  inv s → runs s !! id = Some rn →
  ∃ r, results s !! id = Some r ∧ job_id r = id ∧
       job_ok id r rn (job_log id (log s)) (files s).
Proof.
  intros Hinv Hrn.
  destruct (inv_run s Hinv id) as [r Hr]; [by eexists|].
  destruct (inv_job s Hinv id r Hr) as [Hid [rn' [Hrn' Hok]]].
  rewrite Hrn in Hrn'. injection Hrn' as <-. eauto.
Qed.

Lemma thumbnail_inv s (id : nat) rn o :
  inv s → runs s !! id = Some rn → shot rn = Pending →
  inv (resume_barrier id (set_shot (Fulfilled (captureScreenshot o)) rn) s).
Proof.
  intros Hinv Hrn Hshot.
  destruct (job_of_run s id rn Hinv Hrn) as [r [Hr [Hid Hok]]].
  pose proof (in_store_lt s id r Hinv Hr) as Hlt.
  pose proof (inv_cache s Hinv) as Hc.
  unfold resume_barrier. simpl.
  destruct Hok as [Hph Hun Hsp Hall Hau Hjl | Hph Hun Hsh | ws Hph Hun Hsh
                  | m Hph Hst Her Htr Hoa Hsp Hau Hjl | m Hph Hst Her Htr Hoa Hsh
                  | p ws Hph Hst Her Htr Hoa Hp Hsh ];
    try congruence; rewrite Hph.
  - destruct (audio rn) as [|path|msg] eqn:Haudio.
    + eapply (inv_frame s _ id r); try frame_side; [by rewrite lookup_insert_eq|].
      apply ok_barrier; simpl; rewrite ?Haudio; try done.
    + destruct (Hau path eq_refl) as [-> Hin].
      eapply (inv_frame s _ id (write_screenshot _ r)); try frame_side.
      * by rewrite lookup_alter_eq, Hr.
      * by rewrite lookup_insert_eq.
      * destruct Hun as (?&?&?&?). by apply ok_transcribe.
    + rewrite Hshot in Hall. discriminate.
  - eapply (inv_frame s _ id r); try frame_side; [by rewrite lookup_insert_eq|].
    by eapply ok_failed_audio.
Qed.

Ltac job_cases Hok :=
  destruct Hok as [Hph Hun Hsp Hall Hau Hjl | Hph Hun Hsh Hau Hjl Hin
                  | ws Hph Hun Hsh Hau Hws Hjl Hin
                  | m Hph Hst Her Htr Hoa Hsp Hau Hjl
                  | m Hph Hst Her Htr Hoa Hsh Hau Hjl Hin
                  | p ws Hph Hst Her Htr Hoa Hp Hsh Hau Hjl ].

Lemma audio_inv s (id : nat) rn o :
  inv s → runs s !! id = Some rn → audio rn = Pending →
  inv (step s (AudioSettled id o)).
Proof.
  intros Hinv Hrn Haudio.
  destruct (job_of_run s id rn Hinv Hrn) as [r [Hr [Hid Hok]]].
  pose proof (in_store_lt s id r Hinv Hr) as Hlt.
  pose proof (inv_cache s Hinv) as Hc.
  simpl. rewrite Hrn, Haudio.
  job_cases Hok; try congruence.
  destruct Hun as (Hst & Her & Htr & Hoa).
  destruct o as [|msg]; unfold resume_barrier; simpl; rewrite Hph.
  - destruct (shot rn) as [|url|msg] eqn:Hshot.
    + eapply (inv_frame s _ id r); try frame_side.
      * apply elem_of_union. by left.
      * by rewrite lookup_insert_eq.
      * apply ok_barrier; simpl; rewrite ?Hshot; try done.
        intros p [= <-]. split; [done|]. apply elem_of_union. right.
        by apply elem_of_singleton.
    + eapply (inv_frame s _ id (write_screenshot url r)); try frame_side.
      * apply elem_of_union. by left.
      * by rewrite lookup_alter_eq, Hr.
      * by rewrite lookup_insert_eq.
      * apply ok_transcribe; simpl; rewrite ?Hshot; try done.
        apply elem_of_union. right. by apply elem_of_singleton.
    + rewrite Haudio in Hall. discriminate.
  - assert (promise_all (shot rn) (Rejected msg : Promise string) = Rejected msg) as ->.
    { by destruct (shot rn). }
    apply (caught_inv s id r); try done.
    eapply ok_failed_audio; simpl; eauto.
Qed.

Lemma start_three_valued text c p :
  cache_ok c → getAIProbability_start text c = Ready p → three_valued p.
Proof.
  unfold getAIProbability_start, three_valued. intros Hc.
  destruct (String.length text <? 50)%nat.
  - intros [= <-]. auto.
  - destruct (c !! hashString text) as [q|] eqn:Hq; [|done].
    intros [= <-]. destruct (Hc _ _ Hq); auto.
Qed.

Lemma start_asked text c h :
  getAIProbability_start text c = Asked h → h = hashString text.
Proof.
  unfold getAIProbability_start.
  destruct (String.length text <? 50)%nat; [done|].
  destruct (c !! hashString text); [done|]. by intros [= <-].
Qed.

Lemma finish_three_valued h reply c :
  three_valued (getAIProbability_finish h reply c).1.
Proof.
  unfold three_valued. destruct reply as [label|]; simpl; [|auto].
  case_decide; auto.
Qed.

Lemma finish_cache_ok h reply c :
  cache_ok c → cache_ok (getAIProbability_finish h reply c).2.
Proof.
  intros Hc. destruct reply as [label|]; simpl; [|done].
  intros k p. rewrite lookup_insert. case_decide.
  - intros [= <-]. case_decide; auto.
  - apply Hc.
Qed.

Lemma transcribed_inv s (id : nat) rn audioPath o :
  inv s → runs s !! id = Some rn → phase rn = AtTranscribe audioPath →
  inv (step s (Transcribed id o)).
Proof.
  intros Hinv Hrn Hphase.
  destruct (job_of_run s id rn Hinv Hrn) as [r [Hr [Hid Hok]]].
  pose proof (in_store_lt s id r Hinv Hr) as Hlt.
  pose proof (inv_cache s Hinv) as Hc.
  simpl. rewrite Hrn, Hphase.
  job_cases Hok; try congruence.
  assert (audioPath = outputPath id) as -> by congruence.
  destruct Hun as (Hst & Her & Htr & Hoa).
  destruct o as [t|msg].
  - unfold resume_transcribed.
    destruct (words_of t) as [|w ws] eqn:Hwords.
    + apply (finish_inv s id r); try done.
      eapply (ok_completed _ _ _ _ _ 0.5%Q []); simpl; try done.
      * unfold three_valued. auto.
      * left. by rewrite Hjl.
    + destruct (getAIProbability_start _ (cache s)) as [p|h] eqn:Hstart.
      * eapply (inv_frame s _ id (write_completed _ r)); try frame_side.
        -- by rewrite lookup_alter_eq, Hr.
        -- by rewrite lookup_insert_eq.
        -- rewrite !bool_decide_eq_true_2 by done. rewrite Hjl.
           eapply (ok_completed _ _ _ _ _ p (w :: ws)); simpl; try done.
           ++ by eapply start_three_valued.
           ++ right. split; [done|]. by left.
      * apply start_asked in Hstart as ->.
        eapply (inv_frame s _ id r); try frame_side.
        -- by rewrite lookup_insert_eq.
        -- rewrite !bool_decide_eq_true_2 by done. rewrite Hjl.
           by eapply (ok_classify _ _ _ _ _ (w :: ws)).
  - apply (caught_inv s id r); try done.
    eapply ok_failed_speech; simpl; eauto.
Qed.

Lemma classified_inv s (id : nat) rn audioPath words hash reply :
  inv s → runs s !! id = Some rn → phase rn = AtClassify audioPath words hash →
  inv (step s (Classified id reply)).
Proof.
  intros Hinv Hrn Hphase.
  destruct (job_of_run s id rn Hinv Hrn) as [r [Hr [Hid Hok]]].
  pose proof (in_store_lt s id r Hinv Hr) as Hlt.
  pose proof (inv_cache s Hinv) as Hc.
  simpl. rewrite Hrn, Hphase.
  job_cases Hok; try congruence.
  rewrite Hph in Hphase. injection Hphase as <- <- <-.
  destruct Hun as (Hst & Her & Htr & Hoa).
  unfold resume_classified.
  pose proof (finish_three_valued (hashString (joined_text ws)) reply (cache s)) as H3.
  pose proof (finish_cache_ok (hashString (joined_text ws)) reply (cache s) Hc) as Hc'.
  destruct (getAIProbability_finish _ reply (cache s)) as [p c'].
  eapply (inv_frame s _ id (write_completed _ r)); try frame_side.
  - by rewrite lookup_alter_eq, Hr.
  - by rewrite lookup_insert_eq.
  - rewrite !bool_decide_eq_true_2 by done. rewrite Hjl.
    eapply (ok_completed _ _ _ _ _ p ws); simpl; try done.
    right. split; [done|]. by right.
Qed.

Lemma submit_inv s url valid now : inv s → inv (analyzeVideo url valid now s).
Proof.
  intros Hinv. unfold analyzeVideo. destruct valid; [|done].
  destruct (inv_next s Hinv (next_id s)) as [Hnone Hlog]; [lia|].
  eapply (inv_frame s _ (next_id s)); try frame_side.
  - lia.
  - lia.
  - by apply inv_cache.
  - by rewrite lookup_insert_eq.
  - by rewrite lookup_insert_eq.
  - done.
  - by apply ok_barrier.
Qed.

(** The deletion of an audio file settles.  Only a job that called
    [fs.unlink] can lose its file, and such a job is completed. *)
Lemma unlink_inv s (id : nat) removed : inv s → inv (unlink_settled id removed s).
Proof.
  intros Hinv. unfold unlink_settled.
  destruct (removed && unlinked (outputPath id) (log s)) eqn:Hcond; [|done].
  apply andb_true_iff in Hcond as [_ Hunl].
  destruct Hinv as [Hc Hj Hr Hn]. split; simpl; try done.
  intros j r Hjr. destruct (Hj j r Hjr) as [Hjid [rn [Hrn Hok]]].
  split; [done|]. exists rn. split; [done|].
  destruct (decide (j = id)) as [->|Hne].
  - rewrite <- unlinked_job_log in Hunl.
    job_cases Hok; try (rewrite Hjl in Hunl; simpl in Hunl;
                        rewrite ?bool_decide_eq_false_2 in Hunl by done;
                        discriminate).
    by eapply ok_completed.
  - eapply job_ok_files; [|exact Hok]. by apply path_stays.
Qed.

Lemma step_inv s l : inv s → inv (step s l).
Proof.
  intros Hinv. destruct l as [url valid now|id o|id o|id o|id reply|id removed];
    [..|by apply unlink_inv].
  - by apply submit_inv.
  - simpl. destruct (runs s !! id) as [rn|] eqn:Hrn; [|done].
    destruct (shot rn) eqn:Hshot; try done. by apply thumbnail_inv.
  - destruct (runs s !! id) as [rn|] eqn:Hrn; [|by simpl; rewrite Hrn].
    destruct (audio rn) eqn:Haudio; try (by simpl; rewrite Hrn, Haudio).
    by eapply audio_inv.
  - destruct (runs s !! id) as [rn|] eqn:Hrn; [|by simpl; rewrite Hrn].
    destruct (phase rn) eqn:Hphase; try (by simpl; rewrite Hrn, Hphase).
    by eapply transcribed_inv.
  - destruct (runs s !! id) as [rn|] eqn:Hrn; [|by simpl; rewrite Hrn].
    destruct (phase rn) eqn:Hphase; try (by simpl; rewrite Hrn, Hphase).
    by eapply classified_inv.
Qed.

Lemma run_inv_from s ls : inv s → inv (run s ls).
Proof.
  revert s. induction ls as [|l ls IH]; intros s Hinv; [done|].
  simpl. apply IH. by apply step_inv.
Qed.

Lemma run_inv ls : inv (run init ls).
Proof. apply run_inv_from, inv_init. Qed.

(* ===================================================================== *)
(** ** Events of other jobs, and records that left [processing]          *)
(* ===================================================================== *)

Lemma step_next_id s l : (next_id s ≤ next_id (step s l))%nat.
Proof.
  destruct l; simpl; unfold analyzeVideo, resume_barrier, resume_transcribed,
    resume_classified, caught, finish, unlink_settled;
    repeat case_match; simpl; lia.
Qed.

Lemma step_foreign s l (id : nat) :
  (id < next_id s)%nat → foreign id l →
  results (step s l) !! id = results s !! id ∧ runs (step s l) !! id = runs s !! id.
Proof.
  intros Hlt Hf.
  destruct l; simpl in *; unfold analyzeVideo, resume_barrier, resume_transcribed,
    resume_classified, caught, finish, unlink_settled;
    repeat case_match; simpl;
    rewrite ?lookup_alter_ne, ?lookup_insert_ne by (done || lia); done.
Qed.

Lemma run_foreign ls : ∀ s (id : nat),
  (id < next_id s)%nat → Forall (foreign id) ls →
  results (run s ls) !! id = results s !! id ∧
  runs (run s ls) !! id = runs s !! id ∧
  (id < next_id (run s ls))%nat.
Proof.
  induction ls as [|l ls IH]; intros s id Hlt Hf; [done|].
  apply Forall_cons in Hf as [Hl Hls].
  destruct (step_foreign s l id Hlt Hl) as [Hres Hrun].
  pose proof (step_next_id s l) as Hle.
  destruct (IH (step s l) id) as (H1 & H2 & H3); [lia | done |].
  simpl. by rewrite H1, H2, Hres, Hrun.
Qed.

Lemma run_app s ls1 ls2 : run s (ls1 ++ ls2) = run (run s ls1) ls2.
Proof. apply fold_left_app. Qed.

Lemma run_cons s l ls : run s (l :: ls) = run (step s l) ls.
Proof. reflexivity. Qed.

(** A record that left [processing] is never written again. *)
Lemma terminal_step s l (id : nat) r :
  inv s → results s !! id = Some r → status r ≠ st_processing →
  results (step s l) !! id = Some r.
Proof.
  intros Hinv Hr Hst.
  pose proof (in_store_lt s id r Hinv Hr) as Hlt.
  destruct (inv_job s Hinv id r Hr) as [Hid [rn [Hrn Hok]]].
  assert (phase rn = Returned ∧ audio rn ≠ Pending) as [Hph Hau].
  { destruct Hok as [? [? _]|? [? _]|? ? [? _]| | |];
      try congruence; split; congruence. }
  destruct l as [url valid now|j o|j o|j o|j reply|j removed]; simpl;
    [..|by unfold unlink_settled; case_match].
  - unfold analyzeVideo. destruct valid; [|done]. simpl.
    rewrite lookup_insert_ne by lia. done.
  - destruct (decide (j = id)) as [->|Hne].
    + rewrite Hrn. destruct (shot rn); try done.
      unfold resume_barrier. simpl. by rewrite Hph.
    + destruct (step_foreign s (ThumbnailSettled j o) id Hlt Hne) as [H _].
      simpl in H. by rewrite H.
  - destruct (decide (j = id)) as [->|Hne].
    + rewrite Hrn. by destruct (audio rn).
    + destruct (step_foreign s (AudioSettled j o) id Hlt Hne) as [H _].
      simpl in H. by rewrite H.
  - destruct (decide (j = id)) as [->|Hne].
    + by rewrite Hrn, Hph.
    + destruct (step_foreign s (Transcribed j o) id Hlt Hne) as [H _].
      simpl in H. by rewrite H.
  - destruct (decide (j = id)) as [->|Hne].
    + by rewrite Hrn, Hph.
    + destruct (step_foreign s (Classified j reply) id Hlt Hne) as [H _].
      simpl in H. by rewrite H.
Qed.

Lemma terminal_run ls : ∀ s (id : nat) r,
  inv s → results s !! id = Some r → status r ≠ st_processing →
  results (run s ls) !! id = Some r.
Proof.
  induction ls as [|l ls IH]; intros s id r Hinv Hr Hst; [done|].
  simpl. apply IH; [by apply step_inv | by apply terminal_step | done].
Qed.

(* ===================================================================== *)
(** ** The mean of a uniform segment list                                *)
(* ===================================================================== *)

Lemma of_nat_S n : (of_nat (S n) == of_nat n + 1)%Q.
Proof.
  unfold of_nat. rewrite Nat2Z.inj_succ. unfold Z.succ.
  by rewrite inject_Z_plus.
Qed.

Lemma sum_uniform_from p ws : ∀ a,
  (fold_left (fun sum s => sum + ai_probability s) (segments_of p ws) a
   == a + of_nat (length ws) * p)%Q.
Proof.
  induction ws as [|w ws IH]; intros a; simpl.
  - unfold of_nat. simpl. ring.
  - rewrite IH. rewrite of_nat_S. ring.
Qed.

Lemma length_segments_of p ws : length (segments_of p ws) = length ws.
Proof. unfold segments_of. by rewrite length_map. Qed.

Lemma of_nat_pos n : (0 < n)%nat → (0 < of_nat n)%Q.
Proof.
  intros H. unfold of_nat. change 0%Q with (inject_Z 0).
  rewrite <- Zlt_Qlt. lia.
Qed.

Lemma mean_of_uniform p ws :
  ws ≠ [] →
  (overall_ai_probability (calculateOverallAnalysis (segments_of p ws)) == p)%Q.
Proof.
  intros Hws. simpl. unfold sum_probability.
  rewrite sum_uniform_from, length_segments_of.
  assert (0 < length ws)%nat as Hlen by (destruct ws; [done | simpl; lia]).
  case_decide; [lia|].
  pose proof (of_nat_pos _ Hlen) as Hpos.
  field. intros H0. rewrite H0 in Hpos. by apply Qlt_irrefl in Hpos.
Qed.

Lemma three_valued_unit p : three_valued p → (0 <= p)%Q ∧ (p <= 1)%Q.
Proof. intros [-> | [-> | ->]]; split; by apply Qle_bool_imp_le. Qed.

Lemma map_text_segments_of p ws : map text (segments_of p ws) = map unit_text ws.
Proof. unfold segments_of. rewrite map_map. reflexivity. Qed.

(* ===================================================================== *)
(** ** The job record invariant                                          *)
(* ===================================================================== *)





(* ===================================================================== *)
(** ** The aggregator on the empty list                                  *)
(* ===================================================================== *)

(** C2, as amended.  On the empty segment list [calculateOverallAnalysis]
    returns the overall probability 0 (the sum 0 divided by the guard
    value 1), the confidence [medium] and the prediction for human
    content. *)
Theorem aggregator_on_empty_list :
  overall_ai_probability (calculateOverallAnalysis []) = 0%Q ∧
  confidence_level (calculateOverallAnalysis []) = medium ∧
  overall_prediction (calculateOverallAnalysis []) = "Human-Generated Content".
Proof. repeat split. Qed.

(** C2 as worded fails: the overall probability of the empty list is not
    0.5. *)
Lemma aggregator_on_empty_list_not_neutral :
  ¬ (overall_ai_probability (calculateOverallAnalysis []) == 0.5)%Q.
Proof. intros H. vm_compute in H. discriminate. Qed.

(* ===================================================================== *)
(** ** The audio file after a failed run                                 *)
(* ===================================================================== *)

(** C3, the behaviour of the code.  A job that ended in [error] after its
    audio was extracted keeps its audio file: the file is on disk and
    [fs.unlink] was never called on it, in every reachable state. *)
Theorem failed_run_keeps_audio_file ls (id : nat) r rn path :
  results (run init ls) !! id = Some r →
  runs (run init ls) !! id = Some rn →
  status r = st_error → audio rn = Fulfilled path →
  path = outputPath id ∧
  path ∈ files (run init ls) ∧
  unlinked path (log (run init ls)) = false.
Proof.
  intros Hr Hrn Herr Hpath.
  destruct (inv_job _ (run_inv ls) id r Hr) as [_ [rn' [Hrn' Hok]]].
  rewrite Hrn in Hrn'. injection Hrn' as <-.
  job_cases Hok; try destruct Hun as (Hst' & _); try congruence.
  assert (path = outputPath id) as -> by congruence.
  split; [done|]. split; [done|].
  by rewrite <- unlinked_job_log, Hjl.
Qed.

Lemma failed_run_keeps_audio_file_witness :
  ∃ r rn,
    results (run init speech_failure_run) !! 0%nat = Some r ∧
    runs (run init speech_failure_run) !! 0%nat = Some rn ∧
    status r = st_error ∧ error r = Some "speech-to-text unavailable" ∧
    phase rn = Returned ∧
    "temp/0.wav" ∈ files (run init speech_failure_run) ∧
    unlinked "temp/0.wav" (log (run init speech_failure_run)) = false.
Proof.
  eexists. eexists.
  split; [vm_compute; reflexivity|].
  split; [vm_compute; reflexivity|].
  split; [reflexivity|]. split; [reflexivity|]. split; [reflexivity|].
  eapply (failed_run_keeps_audio_file speech_failure_run 0%nat).
  - vm_compute. reflexivity.
  - vm_compute. reflexivity.
  - reflexivity.
  - reflexivity.
Defined.

(* ===================================================================== *)
(** ** Two calls of getAIProbability with the same text                  *)
(* ===================================================================== *)

(** C4, as amended.  When the first of two sequential calls with the same
    text does not end in a failed request to the detector (it is answered
    from the short-text rule, from the cache, or by a reply of the
    detector), the second call returns the identical probability and sends
    no request, so that at most one request is sent in all. *)
Theorem second_call_is_cache_hit text reply1 reply2 cache :
  (reply1 = NoReply → ∃ p, getAIProbability_start text cache = Ready p) →
  ∃ p sent, twice text reply1 reply2 cache = (p, p, sent, []) ∧
            (length sent ≤ 1)%nat.
Proof.
  intros Hfirst. unfold twice, getAIProbability.
  destruct (getAIProbability_start text cache) as [p|h] eqn:Hstart.
  - rewrite Hstart. exists p, []. split; [done | simpl; lia].
  - destruct reply1 as [label|]; [|by destruct Hfirst as [p Hp]].
    pose proof (start_asked _ _ _ Hstart) as ->.
    simpl. set (p := if decide (label = Some 0%Z) then 0.8%Q else 0.2%Q).
    assert (getAIProbability_start text (<[hashString text := p]> cache) = Ready p) as ->.
    { unfold getAIProbability_start in *.
      destruct (String.length text <? 50)%nat; [done|].
      by rewrite lookup_insert_eq. }
    exists p, [text]. split; [done | simpl; lia].
Qed.

Lemma second_call_is_cache_hit_witness :
  ∃ p sent, twice long_text (Reply (Some 0%Z)) NoReply ∅ = (p, p, sent, []) ∧
            (length sent ≤ 1)%nat.
Proof.
  apply (second_call_is_cache_hit long_text (Reply (Some 0%Z)) NoReply ∅).
  intros H. discriminate H.
Defined.

(** C4 as worded fails when the first request fails: the fallback 0.5 is
    returned without being cached, the second call asks the detector again
    and may return another value. *)
Lemma failed_request_is_asked_again :
  twice long_text NoReply (Reply (Some 0%Z)) ∅
  = (0.5%Q, 0.8%Q, [long_text], [long_text])
  ∧ ¬ (0.5 == 0.8)%Q.
Proof. split; [vm_compute; reflexivity | by intros H; vm_compute in H]. Qed.

(* ===================================================================== *)
(** ** Terminal records                                                  *)
(* ===================================================================== *)

(** C7.  A job is created in [processing]; a step changes the status of a
    record only if that status was [processing]; and once the status of a
    record is [completed] or [error] the whole record is the same in every
    later state, so that [getResult] answers the same. *)
Theorem terminal_record_is_final :
  (∀ s url now, ∃ r,
      results (analyzeVideo url true now s) !! next_id s = Some r ∧
      status r = st_processing) ∧
  (∀ ls l (id : nat) r r',
      results (run init ls) !! id = Some r →
      results (step (run init ls) l) !! id = Some r' →
      status r' ≠ status r → status r = st_processing) ∧
  (∀ ls ls' (id : nat) r,
      results (run init ls) !! id = Some r → status r ≠ st_processing →
      results (run init (ls ++ ls')) !! id = Some r ∧
      getResult (run init (ls ++ ls')) id = getResult (run init ls) id).
Proof.
  split; [|split].
  - intros s url now. eexists. simpl. rewrite lookup_insert_eq. done.
  - intros ls l id r r' Hr Hr' Hne.
    destruct (decide (status r = st_processing)) as [|Hterm]; [done|].
    rewrite (terminal_step _ l id r (run_inv ls) Hr Hterm) in Hr'.
    congruence.
  - intros ls ls' id r Hr Hterm.
    pose proof (terminal_run ls' _ id r (run_inv ls) Hr Hterm) as Hr'.
    rewrite run_app. split; [done|].
    unfold getResult. by rewrite Hr, Hr'.
Qed.

Lemma terminal_record_is_final_witness :
  ∃ r, results (run init silent_run) !! 0%nat = Some r ∧
       results (run init (silent_run ++ speech_failure_run)) !! 0%nat = Some r ∧
       getResult (run init (silent_run ++ speech_failure_run)) 0%nat
       = getResult (run init silent_run) 0%nat.
Proof.
  eexists. split; [vm_compute; reflexivity|].
  apply (proj2 (proj2 terminal_record_is_final) silent_run speech_failure_run 0%nat).
  - vm_compute. reflexivity.
  - discriminate.
Defined.

(* ===================================================================== *)
(** ** One classification per job                                        *)
(* ===================================================================== *)

Lemma in_segments_of p ws seg :
  In seg (segments_of p ws) → ai_probability seg = p.
Proof.
  unfold segments_of. intros Hseg.
  by apply in_map_iff in Hseg as [w [<- _]].
Qed.

(** C8.  A job that completed with a non-empty segment list called
    [getAIProbability] exactly once, on the texts of its segments joined
    by one space; it sent the detector at most one request, with that same
    text; and all its segments carry one and the same probability, which
    is the value that call returned: every segment [analyzeTranscript]
    returns carries the result of [getAIProbability] on the joined text;
    in the pipeline, a job that completes in the step where its
    transcription returns carries the value [getAIProbability] returns for
    the joined text on the cache of that moment, and a job that completes
    when the detector answers carries the value derived from that
    answer. *)
Theorem one_classification_per_job :
  (∀ ls (id : nat) r,
     results (run init ls) !! id = Some r →
     status r = st_completed → transcript r ≠ [] →
     classify_calls id (log (run init ls)) = [JS.join " " (map text (transcript r))] ∧
     (detector_requests id (log (run init ls)) = [] ∨
      detector_requests id (log (run init ls)) = [JS.join " " (map text (transcript r))]) ∧
     (∃ p, ∀ seg, In seg (transcript r) → ai_probability seg = p)) ∧
  (∀ t reply cache seg,
     In seg (analyzeTranscript t reply cache).1.1 →
     ai_probability seg
     = (getAIProbability (joined_text (words_of t)) reply cache).1.1) ∧
  (∀ ls (id : nat) rn audioPath t reply r' seg,
     runs (run init ls) !! id = Some rn → phase rn = AtTranscribe audioPath →
     results (step (run init ls) (Transcribed id (SpeechText t))) !! id = Some r' →
     In seg (transcript r') →
     status r' = st_completed ∧
     ai_probability seg
     = (getAIProbability (joined_text (words_of t)) reply (cache (run init ls))).1.1) ∧
  (∀ ls (id : nat) rn audioPath words hash reply r' seg,
     runs (run init ls) !! id = Some rn → phase rn = AtClassify audioPath words hash →
     results (step (run init ls) (Classified id reply)) !! id = Some r' →
     In seg (transcript r') →
     status r' = st_completed ∧
     hash = hashString (joined_text words) ∧
     ai_probability seg
     = (getAIProbability_finish hash reply (cache (run init ls))).1).
Proof.
  split; [|split; [|split]].
  - intros ls id r Hr Hdone Hsegs.
    destruct (inv_job _ (run_inv ls) id r Hr) as [_ [rn [_ Hok]]].
    job_cases Hok; try destruct Hun as (Hst' & _); try congruence.
    rewrite <- classify_calls_job_log, <- detector_requests_job_log.
    rewrite Htr, map_text_segments_of. fold (joined_text ws).
    destruct Hjl as [[-> _]|[_ [->| ->]]].
    + by rewrite Htr in Hsegs.
    + simpl. rewrite decide_True by done. split; [done|]. split; [by left|].
      exists p. intros seg Hseg. unfold segments_of in Hseg.
      apply in_map_iff in Hseg as [w [<- _]]. done.
    + simpl. rewrite !decide_True by done. split; [done|]. split; [by right|].
      exists p. intros seg Hseg. unfold segments_of in Hseg.
      apply in_map_iff in Hseg as [w [<- _]]. done.
  - intros t reply cache seg. unfold analyzeTranscript.
    destruct (words_of t) as [|w ws]; [done|].
    destruct (getAIProbability _ reply cache) as [[p c'] sent].
    intros Hseg. by apply (in_segments_of p (w :: ws)).
  - intros ls id rn audioPath t reply r' seg Hrn Hphase Hr' Hseg.
    destruct (job_of_run _ id rn (run_inv ls) Hrn) as [r [Hr [_ Hok]]].
    job_cases Hok; try congruence.
    destruct Hun as (_ & _ & Htr & _).
    simpl in Hr'. rewrite Hrn, Hphase in Hr'. unfold resume_transcribed in Hr'.
    destruct (words_of t) as [|w ws].
    { simpl in Hr'. rewrite lookup_alter_eq, Hr in Hr'.
      injection Hr' as <-. done. }
    unfold getAIProbability.
    destruct (getAIProbability_start _ _) as [p|h]; simpl in Hr'.
    + rewrite lookup_alter_eq, Hr in Hr'. injection Hr' as <-.
      split; [done|]. by apply (in_segments_of p (w :: ws)).
    + rewrite Hr in Hr'. injection Hr' as <-. by rewrite Htr in Hseg.
  - intros ls id rn audioPath words hash reply r' seg Hrn Hphase Hr' Hseg.
    destruct (job_of_run _ id rn (run_inv ls) Hrn) as [r [Hr [_ Hok]]].
    job_cases Hok; try congruence.
    rewrite Hph in Hphase. injection Hphase as <- <- <-.
    simpl in Hr'. rewrite Hrn, Hph in Hr'. unfold resume_classified in Hr'.
    destruct (getAIProbability_finish _ reply _) as [p c']. simpl in Hr'.
    rewrite lookup_alter_eq, Hr in Hr'. injection Hr' as <-.
    split; [done|]. split; [done|]. by apply (in_segments_of p ws).
Qed.

Lemma one_classification_per_job_witness :
  ∃ r, results (run init (long_run ++ [Classified 0 (Reply (Some 0%Z))])%list) !! 0%nat
       = Some r ∧
    status r = st_completed ∧ transcript r ≠ [] ∧
    classify_calls 0 (log (run init (long_run ++ [Classified 0 (Reply (Some 0%Z))])%list))
    = [JS.join " " (map text (transcript r))] ∧
    (∀ seg, In seg (transcript r) → ai_probability seg = 0.8%Q).
Proof.
  eexists. split; [vm_compute; reflexivity|].
  split; [reflexivity|]. split; [discriminate|].
  split.
  - apply (proj1 one_classification_per_job
             (long_run ++ [Classified 0 (Reply (Some 0%Z))])%list 0%nat).
    + vm_compute. reflexivity.
    + reflexivity.
    + discriminate.
  - intros seg Hseg.
    match type of Hseg with
    | In seg (transcript ?r') =>
        destruct (proj2 (proj2 (proj2 one_classification_per_job)) long_run 0%nat
                    {| phase := AtClassify (outputPath 0)
                                  [spoken long_text; spoken "indeed"]
                                  (hashString (joined_text [spoken long_text; spoken "indeed"]));
                       shot := Fulfilled "https://i.ibb.co/v.png";
                       audio := Fulfilled (outputPath 0) |}
                    (outputPath 0) [spoken long_text; spoken "indeed"]
                    (hashString (joined_text [spoken long_text; spoken "indeed"]))
                    (Reply (Some 0%Z)) r' seg) as (_ & _ & H)
    end.
    + vm_compute. reflexivity.
    + reflexivity.
    + vm_compute. reflexivity.
    + exact Hseg.
    + exact H.
Defined.

(* ===================================================================== *)
(** ** The values a probability can take                                 *)
(* ===================================================================== *)

(** C10.  In every reachable state a call of [getAIProbability] returns
    0.2, 0.8 or 0.5 whatever the text and the reply; every stored segment
    carries one of these three values, which lie in [0,1]; and the overall
    probability of a stored summary lies in [0,1]. *)
Theorem probabilities_are_three_valued ls :
  (∀ text reply,
     three_valued (getAIProbability text reply (cache (run init ls))).1.1) ∧
  (∀ (id : nat) r seg,
     results (run init ls) !! id = Some r → In seg (transcript r) →
     three_valued (ai_probability seg) ∧
     (0 <= ai_probability seg)%Q ∧ (ai_probability seg <= 1)%Q) ∧
  (∀ (id : nat) r oa,
     results (run init ls) !! id = Some r → overallAnalysis r = Some oa →
     (0 <= overall_ai_probability oa)%Q ∧ (overall_ai_probability oa <= 1)%Q).
Proof.
  pose proof (run_inv ls) as Hinv. split; [|split].
  - intros text reply. unfold getAIProbability.
    destruct (getAIProbability_start text _) as [p|h] eqn:Hstart.
    + simpl. eapply start_three_valued; [by apply inv_cache | done].
    + pose proof (finish_three_valued h reply (cache (run init ls))) as H3.
      by destruct (getAIProbability_finish h reply _).
  - intros id r seg Hr Hseg.
    destruct (inv_job _ Hinv id r Hr) as [_ [rn [_ Hok]]].
    job_cases Hok; try destruct Hun as (_ & _ & Htr & _);
      try (by rewrite Htr in Hseg).
    rewrite Htr in Hseg. unfold segments_of in Hseg.
    apply in_map_iff in Hseg as [w [<- _]]. simpl.
    split; [done|]. by apply three_valued_unit.
  - intros id r oa Hr Hsum.
    destruct (inv_job _ Hinv id r Hr) as [_ [rn [_ Hok]]].
    job_cases Hok; try destruct Hun as (_ & _ & _ & Hoa); try congruence.
    rewrite Hoa in Hsum. injection Hsum as <-. rewrite Htr.
    destruct ws as [|w ws].
    + split; by apply Qle_bool_imp_le.
    + rewrite mean_of_uniform by done. by apply three_valued_unit.
Qed.

Lemma probabilities_are_three_valued_witness :
  ∃ r, results (run init spoken_run) !! 0%nat = Some r ∧
    ∀ oa, overallAnalysis r = Some oa →
      (0 <= overall_ai_probability oa)%Q ∧ (overall_ai_probability oa <= 1)%Q.
Proof.
  eexists. split; [vm_compute; reflexivity|].
  intros oa.
  apply (proj2 (proj2 (probabilities_are_three_valued spoken_run)) 0%nat).
  vm_compute. reflexivity.
Defined.

(* ===================================================================== *)
(** ** Failure of the audio extraction                                   *)
(* ===================================================================== *)

(** C5, as amended.  When the audio extraction of a job fails with
    message [msg], whatever that message is, the job record gets the
    status [error] and exactly [msg] as its detail, so that the detail is
    non-empty exactly when the failure carries a non-empty message; its
    segment list is empty and it has no summary; and the record stays so
    in every later state. *)
Theorem audio_failure_marks_error ls ls' (id : nat) rn msg :
  runs (run init ls) !! id = Some rn → audio rn = Pending →
  ∃ r,
    results (run init (ls ++ AudioSettled id (AudioError msg) :: ls')) !! id = Some r ∧
    status r = st_error ∧
    error r = Some msg ∧ (error r = Some "" ↔ msg = "") ∧
    transcript r = [] ∧ overallAnalysis r = None.
Proof.
  intros Hrn Haudio.
  pose proof (run_inv ls) as Hinv.
  destruct (job_of_run _ id rn Hinv Hrn) as [r [Hr [Hid Hok]]].
  job_cases Hok; try congruence.
  destruct Hun as (Hst & Her & Htr & Hoa).
  assert (promise_all (shot rn) (Rejected msg : Promise string) = Rejected msg) as Hall'.
  { by destruct (shot rn). }
  assert (results (step (run init ls) (AudioSettled id (AudioError msg))) !! id
          = Some (write_error msg r)) as Hstep.
  { simpl. rewrite Hrn, Haudio. unfold resume_barrier. simpl.
    rewrite Hph, Hall'. simpl. by rewrite lookup_alter_eq, Hr. }
  exists (write_error msg r).
  rewrite run_app, run_cons.
  split; [|simpl; repeat split; congruence].
  apply terminal_run; [by apply step_inv | done | done].
Qed.

Lemma audio_failure_marks_error_witness :
  ∃ r,
    results (run init ([Submit "https://youtu.be/v" true 0]
                       ++ AudioSettled 0 (AudioError "ffmpeg exited with code 1")
                       :: [ThumbnailSettled 0 (CaptureFailed "timeout")])) !! 0%nat
    = Some r ∧
    status r = st_error ∧
    error r = Some "ffmpeg exited with code 1" ∧
    (error r = Some "" ↔ "ffmpeg exited with code 1" = "") ∧
    transcript r = [] ∧ overallAnalysis r = None.
Proof.
  eapply (audio_failure_marks_error [Submit "https://youtu.be/v" true 0]
            [ThumbnailSettled 0 (CaptureFailed "timeout")] 0%nat).
  - vm_compute. reflexivity.
  - reflexivity.
Defined.

(** C5 as worded fails for a failure whose message is empty: the job ends
    in [error] with the empty string as its detail. *)
Lemma audio_failure_with_empty_message :
  ∃ r,
    results (run init [Submit "https://youtu.be/v" true 0;
                       AudioSettled 0 (AudioError "")]) !! 0%nat = Some r ∧
    status r = st_error ∧ error r = Some "" ∧ transcript r = [] ∧
    ¬ (∃ detail, error r = Some detail ∧ detail ≠ "").
Proof.
  eexists. split; [vm_compute; reflexivity|].
  split; [reflexivity|]. split; [reflexivity|]. split; [reflexivity|].
  simpl. intros (detail & [= <-] & Hne). by apply Hne.
Qed.

(* ===================================================================== *)
(** ** The barrier                                                       *)
(* ===================================================================== *)

(** C9, as amended.  [analyzeVideo] starts the thumbnail capture and the
    audio extraction in the same step, both pending.  A run waits at the
    barrier as long as [Promise.all] is pending; a run that went on to the
    transcription has both promises fulfilled; and a run that has returned
    has both promises fulfilled, unless the audio extraction was rejected:
    then the error is written at once and the thumbnail capture may be
    pending still. *)
Theorem barrier_waits_unless_audio_fails :
  (∀ s url now,
     runs (analyzeVideo url true now s) !! next_id s
     = Some {| phase := AtBarrier; shot := Pending; audio := Pending |}) ∧
  (∀ ls (id : nat) rn,
     runs (run init ls) !! id = Some rn →
     match phase rn with
     | AtBarrier => promise_all (shot rn) (audio rn) = Pending
     | AtTranscribe _ | AtClassify _ _ _ =>
         ∃ url path, shot rn = Fulfilled url ∧ audio rn = Fulfilled path
     | Returned =>
         (∃ url path, shot rn = Fulfilled url ∧ audio rn = Fulfilled path)
         ∨ (∃ msg r, audio rn = Rejected msg ∧
                     results (run init ls) !! id = Some r ∧
                     status r = st_error ∧ error r = Some msg)
     end).
Proof.
  split.
  - intros s url now. simpl. by rewrite lookup_insert_eq.
  - intros ls id rn Hrn.
    destruct (job_of_run _ id rn (run_inv ls) Hrn) as [r [Hr [Hid Hok]]].
    job_cases Hok; rewrite Hph; eauto 10.
Qed.

Lemma barrier_waits_unless_audio_fails_witness :
  ∃ rn, runs (run init spoken_run) !! 0%nat = Some rn ∧
        phase rn = Returned ∧
        ∃ url path, shot rn = Fulfilled url ∧ audio rn = Fulfilled path.
Proof.
  eexists. split; [vm_compute; reflexivity|]. split; [reflexivity|].
  pose proof (proj2 barrier_waits_unless_audio_fails spoken_run 0%nat _ eq_refl) as H.
  simpl in H. destruct H as [H|[msg [r [H _]]]]; [exact H | discriminate H].
Defined.

(** C9 as worded fails: when the audio extraction is rejected first, the
    error is written and the run has returned while the thumbnail capture
    is pending. *)
Lemma error_written_while_capture_pending :
  (∃ r rn, results (run init audio_failure_run) !! 0%nat = Some r ∧
           runs (run init audio_failure_run) !! 0%nat = Some rn ∧
           status r = st_error ∧ phase rn = Returned ∧ shot rn = Pending) ∧
  ¬ barrier_as_specified (run init audio_failure_run).
Proof.
  split.
  - eexists. eexists. split; [vm_compute; reflexivity|].
    split; [vm_compute; reflexivity|]. done.
  - intros H.
    destruct (H 0%nat {| phase := Returned; shot := Pending;
                         audio := Rejected "ffmpeg exited with code 1" |})
      as [Hshot _].
    + vm_compute. reflexivity.
    + discriminate.
    + discriminate Hshot.
Qed.

(* ===================================================================== *)
(** ** Failure of the thumbnail capture                                  *)
(* ===================================================================== *)

Lemma at_job_carry s ls id r rn :
  at_job s id r rn → Forall (foreign id) ls → at_job (run s ls) id r rn.
Proof.
  intros (Hinv & Hlt & Hr & Hrn) Hf.
  destruct (run_foreign ls s id Hlt Hf) as (H1 & H2 & H3).
  split; [by apply run_inv_from | split; [done | split; congruence]].
Qed.

Lemma at_job_step s l id r rn r' rn' :
  at_job s id r rn →
  results (step s l) !! id = Some r' → runs (step s l) !! id = Some rn' →
  at_job (step s l) id r' rn'.
Proof.
  intros (Hinv & Hlt & _ & _) Hr' Hrn'.
  pose proof (step_next_id s l).
  split; [by apply step_inv | split; [lia | by split]].
Qed.

Ltac step_lookup Hr Hrn :=
  simpl; rewrite Hrn; simpl;
  unfold resume_barrier, resume_transcribed, resume_classified, caught, finish;
  simpl; rewrite ?lookup_alter_eq, ?lookup_insert_eq, ?Hr; try done.

(** Both orders of the two acquisition events lead to the same place. *)
Lemma acquisition_done s id r o first second ls2 :
  at_job s id r {| phase := AtBarrier; shot := Pending; audio := Pending |} →
  (first = ThumbnailSettled id o ∧ second = AudioSettled id AudioSaved
   ∨ first = AudioSettled id AudioSaved ∧ second = ThumbnailSettled id o) →
  Forall (foreign id) ls2 →
  at_job (step (run (step s first) ls2) second) id
    (write_screenshot (captureScreenshot o) r)
    {| phase := AtTranscribe (outputPath id);
       shot := Fulfilled (captureScreenshot o);
       audio := Fulfilled (outputPath id) |}.
Proof.
  intros Hat [[Hfirst ->]|[Hfirst ->]] Hf2.
  - assert (at_job (step s first) id r
              {| phase := AtBarrier; shot := Fulfilled (captureScreenshot o);
                 audio := Pending |}) as Hat1.
    { rewrite Hfirst. pose proof Hat as (_ & _ & Hr & Hrn).
      eapply at_job_step; [exact Hat | step_lookup Hr Hrn..]. }
    apply (at_job_carry _ ls2) in Hat1; [|done].
    revert Hat1. generalize (run (step s first) ls2). intros s2 Hat1.
    pose proof Hat1 as (_ & _ & Hr & Hrn).
    eapply at_job_step; [exact Hat1 | step_lookup Hr Hrn..].
  - assert (at_job (step s first) id r
              {| phase := AtBarrier; shot := Pending;
                 audio := Fulfilled (outputPath id) |}) as Hat1.
    { rewrite Hfirst. pose proof Hat as (_ & _ & Hr & Hrn).
      eapply at_job_step; [exact Hat | step_lookup Hr Hrn..]. }
    apply (at_job_carry _ ls2) in Hat1; [|done].
    revert Hat1. generalize (run (step s first) ls2). intros s2 Hat1.
    pose proof Hat1 as (_ & _ & Hr & Hrn).
    eapply at_job_step; [exact Hat1 | step_lookup Hr Hrn..].
Qed.

(** From the transcription on, a job whose stages all succeed completes,
    and keeps the thumbnail reference it had. *)
Lemma analysis_done s id r rn audioPath t reply ls4 :
  at_job s id r rn → phase rn = AtTranscribe audioPath →
  Forall (foreign id) ls4 →
  ∃ segments rn',
    at_job (step (run (step s (Transcribed id (SpeechText t))) ls4)
              (Classified id reply)) id
      (write_completed segments r) rn'.
Proof.
  intros Hat Hph Hf4.
  pose proof Hat as (_ & _ & Hr & Hrn).
  destruct (words_of t) as [|w ws] eqn:Hwords.
  - (* no raw unit: the run returns at once *)
    assert (at_job (step s (Transcribed id (SpeechText t))) id
              (write_completed [] r) (set_phase Returned rn)) as Hat1.
    { eapply at_job_step; [exact Hat |..];
        simpl; rewrite Hrn, Hph; unfold resume_transcribed; rewrite Hwords;
        simpl; by rewrite ?lookup_alter_eq, ?lookup_insert_eq, ?Hr. }
    apply (at_job_carry _ ls4) in Hat1; [|done].
    revert Hat1. generalize (run (step s (Transcribed id (SpeechText t))) ls4).
    intros s4 Hat1.
    pose proof Hat1 as (_ & _ & Hr1 & Hrn1).
    exists [], (set_phase Returned rn).
    eapply at_job_step; [exact Hat1 |..]; simpl; by rewrite Hrn1.
  - destruct (getAIProbability_start (joined_text (w :: ws)) (cache s))
      as [p|h] eqn:Hstart.
    + (* short text or cache hit: the run returns at once *)
      assert (at_job (step s (Transcribed id (SpeechText t))) id
                (write_completed (segments_of p (w :: ws)) r)
                (set_phase Returned rn)) as Hat1.
      { eapply at_job_step; [exact Hat |..];
          simpl; rewrite Hrn, Hph; unfold resume_transcribed; rewrite Hwords;
          simpl; rewrite Hstart;
          simpl; by rewrite ?lookup_alter_eq, ?lookup_insert_eq, ?Hr. }
      apply (at_job_carry _ ls4) in Hat1; [|done].
      revert Hat1. generalize (run (step s (Transcribed id (SpeechText t))) ls4).
      intros s4 Hat1.
      pose proof Hat1 as (_ & _ & Hr1 & Hrn1).
      exists (segments_of p (w :: ws)), (set_phase Returned rn).
      eapply at_job_step; [exact Hat1 |..]; simpl; by rewrite Hrn1.
    + (* the detector is asked: the run returns when it answers *)
      assert (at_job (step s (Transcribed id (SpeechText t))) id r
                (set_phase (AtClassify audioPath (w :: ws) h) rn)) as Hat1.
      { eapply at_job_step; [exact Hat |..];
          simpl; rewrite Hrn, Hph; unfold resume_transcribed; rewrite Hwords;
          simpl; rewrite Hstart;
          simpl; by rewrite ?lookup_insert_eq, ?Hr. }
      apply (at_job_carry _ ls4) in Hat1; [|done].
      revert Hat1. generalize (run (step s (Transcribed id (SpeechText t))) ls4).
      intros s4 Hat1.
      pose proof Hat1 as (_ & _ & Hr1 & Hrn1).
      destruct (getAIProbability_finish h reply (cache s4)) as [p c'] eqn:Hfinish.
      exists (segments_of p (w :: ws)),
        (set_phase Returned (set_phase (AtClassify audioPath (w :: ws) h) rn)).
      eapply at_job_step; [exact Hat1 |..];
        simpl; rewrite Hrn1; simpl; unfold resume_classified; rewrite Hfinish;
        simpl; by rewrite ?lookup_alter_eq, ?lookup_insert_eq, ?Hr1.
Qed.

Lemma capture_failed_placeholder o :
  capture_failed o → is_placeholder (captureScreenshot o).
Proof.
  unfold is_placeholder. destruct o as [[url|msg]|msg]; simpl; [done | auto | auto].
Qed.

(** C6.  A failed capture or upload yields one of the two placeholder
    references; the settling of a thumbnail capture never turns a job
    record into [error]; and a job whose thumbnail capture fails while its
    other stages succeed ends [completed] with a placeholder as thumbnail
    reference, in either order of the two acquisition tasks and whatever
    other jobs do in between. *)
Theorem thumbnail_failure_is_absorbed :
  (∀ o, capture_failed o → is_placeholder (captureScreenshot o)) ∧
  (∀ ls (id j : nat) o r,
     results (step (run init ls) (ThumbnailSettled id o)) !! j = Some r →
     status r = st_error →
     ∃ r0, results (run init ls) !! j = Some r0 ∧ status r0 = st_error) ∧
  (∀ ls url now o t reply first second ls1 ls2 ls3 ls4 ls5,
     let id := next_id (run init ls) in
     capture_failed o →
     (first = ThumbnailSettled id o ∧ second = AudioSettled id AudioSaved
      ∨ first = AudioSettled id AudioSaved ∧ second = ThumbnailSettled id o) →
     Forall (foreign id) ls1 → Forall (foreign id) ls2 →
     Forall (foreign id) ls3 → Forall (foreign id) ls4 →
     ∃ r,
       results (run init (ls ++ Submit url true now :: ls1 ++ first :: ls2
                             ++ second :: ls3
                             ++ Transcribed id (SpeechText t) :: ls4
                             ++ Classified id reply :: ls5)) !! id = Some r ∧
       status r = st_completed ∧ is_placeholder (screenshotPath r)).
Proof.
  split; [exact capture_failed_placeholder | split].
  - intros ls id j o r Hr Herr.
    pose proof (run_inv ls) as Hinv.
    destruct (decide (j = id)) as [->|Hne].
    + simpl in Hr.
      destruct (runs (run init ls) !! id) as [rn|] eqn:Hrn; [|by eauto].
      destruct (shot rn) eqn:Hshot; [|by eauto..].
      destruct (job_of_run _ id rn Hinv Hrn) as [r0 [Hr0 [_ Hok]]].
      unfold resume_barrier in Hr. simpl in Hr.
      job_cases Hok; try congruence; rewrite Hph in Hr.
      * destruct Hun as (Hst & _).
        destruct (audio rn); simpl in Hr.
        -- rewrite Hr0 in Hr. injection Hr as <-. congruence.
        -- rewrite lookup_alter_eq, Hr0 in Hr. injection Hr as <-.
           simpl in Herr. congruence.
        -- rewrite Hshot in Hall. discriminate.
      * simpl in Hr. eauto.
    + destruct (results (run init ls) !! j) as [r0|] eqn:Hr0.
      * pose proof (in_store_lt _ j r0 Hinv Hr0) as Hlt.
        destruct (step_foreign _ (ThumbnailSettled id o) j Hlt) as [H _];
          [simpl; congruence|].
        rewrite H, Hr0 in Hr. injection Hr as <-. eauto.
      * exfalso. simpl in Hr.
        destruct (runs (run init ls) !! id) as [rn|]; [|congruence].
        destruct (shot rn); try congruence.
        unfold resume_barrier in Hr.
        repeat case_match; simpl in Hr;
          rewrite ?lookup_alter_ne in Hr by done; congruence.
  - intros ls url now o t reply first second ls1 ls2 ls3 ls4 ls5 id
      Hfail Horder Hf1 Hf2 Hf3 Hf4.
    pose proof (run_inv ls) as Hinv.
    set (r0 := {| job_id := id; videoUrl := url; screenshotPath := "";
                  transcript := []; overallAnalysis := None; createdAt := now;
                  status := st_processing; error := None |}).
    assert (at_job (step (run init ls) (Submit url true now)) id r0
              {| phase := AtBarrier; shot := Pending; audio := Pending |}) as Hat.
    { split; [by apply step_inv | split; [simpl; lia | split]];
        simpl; by rewrite lookup_insert_eq. }
    apply (at_job_carry _ ls1) in Hat; [|done].
    apply (acquisition_done _ id r0 o first second ls2) in Hat; [|done..].
    apply (at_job_carry _ ls3) in Hat; [|done].
    destruct (analysis_done _ id _ _ _ t reply ls4 Hat eq_refl Hf4)
      as (segments & rn' & Hinv' & _ & Hr' & _).
    exists (write_completed segments (write_screenshot (captureScreenshot o) r0)).
    split; [|split; [done | by apply capture_failed_placeholder]].
    rewrite run_app, run_cons, run_app, run_cons, run_app, run_cons,
      run_app, run_cons, run_app, run_cons.
    by apply terminal_run.
Qed.

Lemma thumbnail_failure_is_absorbed_witness :
  ∃ r,
    results (run init ([] ++ Submit "https://youtu.be/v" true 0 :: []
                          ++ AudioSettled 0 AudioSaved :: []
                          ++ ThumbnailSettled 0 (Captured (UploadFailed "imgbb down")) :: []
                          ++ Transcribed 0 (SpeechText speech) :: []
                          ++ Classified 0 NoReply :: [])) !! 0%nat = Some r ∧
    status r = st_completed ∧ is_placeholder (screenshotPath r).
Proof.
  apply (proj2 (proj2 thumbnail_failure_is_absorbed) []
           "https://youtu.be/v" 0%Z (Captured (UploadFailed "imgbb down"))
           speech NoReply
           (AudioSettled 0 AudioSaved)
           (ThumbnailSettled 0 (Captured (UploadFailed "imgbb down")))
           [] [] [] [] []).
  - simpl. exact I.
  - right. split; reflexivity.
  - apply Forall_nil_2.
  - apply Forall_nil_2.
  - apply Forall_nil_2.
  - apply Forall_nil_2.
Defined.

(* ===================================================================== *)
(** ** hashString: arithmetic, range, keys                                *)
(* ===================================================================== *)

Lemma toInt32_range z : int32 (JS.toInt32 z).
Proof.
  unfold int32, JS.toInt32.
  pose proof (Z.mod_pos_bound (z + 2 ^ 31) (2 ^ 32)) as H. lia.
Qed.

Lemma toInt32_shift z k : JS.toInt32 (z + k * 2 ^ 32) = JS.toInt32 z.
Proof.
  unfold JS.toInt32.
  replace (z + k * 2 ^ 32 + 2 ^ 31)%Z with (z + 2 ^ 31 + k * 2 ^ 32)%Z by lia.
  by rewrite Z_mod_plus_full.
Qed.

Lemma toInt32_repr z : ∃ k, JS.toInt32 z = (z + k * 2 ^ 32)%Z.
Proof.
  exists (- ((z + 2 ^ 31) / 2 ^ 32))%Z. unfold JS.toInt32.
  pose proof (Z.div_mod (z + 2 ^ 31) (2 ^ 32)) as H. lia.
Qed.

Lemma toInt32_int32 z : int32 z → JS.toInt32 z = z.
Proof.
  unfold int32, JS.toInt32. intros H.
  rewrite Z.mod_small by lia. lia.
Qed.

Lemma toInt32_idem z : JS.toInt32 (JS.toInt32 z) = JS.toInt32 z.
Proof. apply toInt32_int32, toInt32_range. Qed.

(** One turn of the loop is [31 * hash + code], wrapped to 32 bits. *)
Lemma hash_step_spec h c : hash_step h c = JS.toInt32 (31 * h + JS.charCode c).
Proof.
  unfold hash_step, JS.band, JS.shl.
  change (JS.toInt32 4294967295) with (-1)%Z. rewrite Z.land_m1_r.
  rewrite Z.shiftl_mul_pow2 by lia.
  destruct (toInt32_repr h) as [k1 ->].
  destruct (toInt32_repr ((h + k1 * 2 ^ 32) * 2 ^ 5)) as [k2 ->].
  replace ((h + k1 * 2 ^ 32) * 2 ^ 5 + k2 * 2 ^ 32 - h + JS.charCode c)%Z
    with (31 * h + JS.charCode c + (32 * k1 + k2) * 2 ^ 32)%Z by lia.
  apply toInt32_shift.
Qed.

Lemma toInt32_affine h h' c :
  JS.toInt32 h = JS.toInt32 h' →
  JS.toInt32 (31 * h + c) = JS.toInt32 (31 * h' + c).
Proof.
  intros H.
  destruct (toInt32_repr h) as [k Hk]. destruct (toInt32_repr h') as [k' Hk'].
  assert (h = h' + (k' - k) * 2 ^ 32)%Z as -> by lia.
  replace (31 * (h' + (k' - k) * 2 ^ 32) + c)%Z
    with (31 * h' + c + (31 * (k' - k)) * 2 ^ 32)%Z by lia.
  apply toInt32_shift.
Qed.

Lemma hash_loop_poly text : ∀ h h',
  JS.toInt32 h = JS.toInt32 h' →
  JS.toInt32 (hash_loop h text) = JS.toInt32 (hash_poly h' text).
Proof.
  induction text as [|c rest IH]; intros h h' Hh; simpl; [done|].
  apply IH. rewrite hash_step_spec, toInt32_idem. by apply toInt32_affine.
Qed.

Lemma hash_loop_int32 text : ∀ h, int32 h → int32 (hash_loop h text).
Proof.
  induction text as [|c rest IH]; intros h Hh; simpl; [done|].
  apply IH. rewrite hash_step_spec. apply toInt32_range.
Qed.

Lemma hash_loop_app a s : ∀ h, hash_loop h (a ++ s) = hash_loop (hash_loop h a) s.
Proof. induction a as [|c a IH]; intros h; simpl; [done | apply IH]. Qed.

(** X1.  The loop of [hashString] computes the polynomial hash
    [31 * h + code] over the characters, wrapped to a signed 32-bit value:
    the shift, the subtraction and the mask add up to that, and the result
    always lies between -2^31 and 2^31 - 1. *)
Theorem hashString_is_polynomial_hash text :
  hash_loop 0 text = JS.toInt32 (hash_poly 0 text) ∧
  (- 2 ^ 31 <= hash_loop 0 text < 2 ^ 31)%Z.
Proof.
  assert (int32 (hash_loop 0 text)) as Hr.
  { apply hash_loop_int32. unfold int32. lia. }
  split; [|exact Hr].
  rewrite <- (toInt32_int32 _ Hr). by apply hash_loop_poly.
Qed.

Lemma digit36_value_digit36 d :
  (0 <= d < 36)%Z → digit36_value (JS.digit36 d) = d.
Proof.
  intros Hd. unfold digit36_value, JS.digit36.
  destruct (d <? 10)%Z eqn:Hlt.
  - apply Z.ltb_lt in Hlt.
    rewrite N_ascii_embedding by lia.
    rewrite Z2N.id by lia.
    destruct (48 + d <? 58)%Z eqn:H; [lia|]. apply Z.ltb_ge in H. lia.
  - apply Z.ltb_ge in Hlt.
    rewrite N_ascii_embedding by lia.
    rewrite Z2N.id by lia.
    destruct (87 + d <? 58)%Z eqn:H; [|lia]. apply Z.ltb_lt in H. lia.
Qed.

Lemma read36_digits36 fuel : ∀ n acc v,
  (0 <= n < 2 ^ Z.of_nat fuel)%Z → (0 < fuel)%nat →
  ∃ k, (0 <= k)%Z ∧
       read36 v (JS.digits36 fuel n acc) = read36 (v * 36 ^ k + n) acc.
Proof.
  induction fuel as [|fuel IH]; intros n acc v Hn Hfuel; [lia|].
  simpl JS.digits36.
  assert (0 <= n mod 36 < 36)%Z as Hd by (apply Z.mod_pos_bound; lia).
  pose proof (Z.div_mod n 36) as Hdm.
  destruct (n / 36 =? 0)%Z eqn:Hq.
  - apply Z.eqb_eq in Hq. exists 1%Z. split; [lia|].
    simpl. rewrite digit36_value_digit36 by done. f_equal. lia.
  - apply Z.eqb_neq in Hq.
    assert (0 < n / 36)%Z as Hpos.
    { pose proof (Z.div_pos n 36). lia. }
    assert (n / 36 < 2 ^ Z.of_nat fuel)%Z as Hlt.
    { rewrite Nat2Z.inj_succ, Z.pow_succ_r in Hn by lia.
      apply Z.div_lt_upper_bound; lia. }
    destruct fuel as [|fuel'].
    { simpl in Hlt. lia. }
    destruct (IH (n / 36)%Z (String (JS.digit36 (n mod 36)) acc) v) as [k [Hk Hread]];
      [lia | lia |].
    exists (k + 1)%Z. split; [lia|].
    rewrite Hread. simpl. rewrite digit36_value_digit36 by done.
    f_equal. rewrite Z.pow_add_r by lia. lia.
Qed.

Lemma digits36_head fuel : ∀ n acc,
  (0 <= n)%Z →
  ∃ d rest, (0 <= d < 36)%Z ∧
            JS.digits36 (S fuel) n acc = String (JS.digit36 d) rest.
Proof.
  induction fuel as [|fuel IH]; intros n acc Hn.
  - assert (0 <= n mod 36 < 36)%Z as Hd by (apply Z.mod_pos_bound; lia).
    simpl. destruct (n / 36 =? 0)%Z; eauto.
  - assert (0 <= n mod 36 < 36)%Z as Hd by (apply Z.mod_pos_bound; lia).
    change (JS.digits36 (S (S fuel)) n acc)
      with (if (n / 36 =? 0)%Z then String (JS.digit36 (n mod 36)) acc
            else JS.digits36 (S fuel) (n / 36) (String (JS.digit36 (n mod 36)) acc)).
    destruct (n / 36 =? 0)%Z; [eauto|].
    apply IH. apply Z.div_pos; lia.
Qed.

Lemma digit36_not_dash d : (0 <= d < 36)%Z → Ascii.eqb (JS.digit36 d) "-" = false.
Proof.
  intros Hd. apply Ascii.eqb_neq. intros H.
  pose proof (digit36_value_digit36 d Hd) as Hv. rewrite H in Hv.
  vm_compute in Hv. lia.
Qed.

Lemma fuel_enough m : (0 <= m)%Z → (0 <= m < 2 ^ Z.of_nat (S (Z.to_nat (Z.log2 m))))%Z.
Proof.
  intros Hm. split; [done|].
  rewrite Nat2Z.inj_succ, Z2Nat.id by apply Z.log2_nonneg.
  destruct (decide (m = 0%Z)) as [->|Hne]; [done|].
  apply Z.log2_spec. lia.
Qed.

Lemma parse36_toString36 n : parse36 (JS.toString36 n) = n.
Proof.
  unfold JS.toString36.
  set (m := Z.abs n).
  assert (0 <= m)%Z as Hm by (unfold m; lia).
  destruct (read36_digits36 _ m "" 0 (fuel_enough m Hm)) as [k [_ Hread]]; [lia|].
  cbn [read36] in Hread.
  set (ds := JS.digits36 (S (Z.to_nat (Z.log2 m))) m "") in *.
  destruct (n <? 0)%Z eqn:Hneg.
  - apply Z.ltb_lt in Hneg.
    change ("-" ++ ds) with (String "-" ds).
    unfold parse36. rewrite Ascii.eqb_refl, Hread. unfold m. lia.
  - apply Z.ltb_ge in Hneg.
    destruct (digits36_head (Z.to_nat (Z.log2 m)) m "" Hm) as (d & rest & Hd & Hhead).
    fold ds in Hhead.
    unfold parse36. rewrite Hhead, digit36_not_dash by done.
    rewrite <- Hhead, Hread. unfold m. lia.
Qed.

(** X2.  [toString(36)] loses nothing: two numbers with the same base-36
    text are equal.  Hence two texts get the same cache key exactly when
    their 32-bit hashes are equal. *)
Theorem cache_key_is_the_hash a b :
  (∀ x y, JS.toString36 x = JS.toString36 y → x = y) ∧
  (hashString a = hashString b ↔ hash_loop 0 a = hash_loop 0 b).
Proof.
  assert (∀ x y, JS.toString36 x = JS.toString36 y → x = y) as Hinj.
  { intros x y H. rewrite <- (parse36_toString36 x), <- (parse36_toString36 y).
    by rewrite H. }
  split; [exact Hinj|]. unfold hashString. split; [apply Hinj | by intros ->].
Qed.

Lemma cache_key_is_the_hash_witness : hash_loop 0 "Aa" = hash_loop 0 "BB".
Proof.
  apply (proj1 (proj2 (cache_key_is_the_hash "Aa" "BB"))). reflexivity.
Defined.

(** X3.  Texts that agree after prefixes of equal hash collide, whatever
    the common rest is: the second text is then answered from the cache
    entry of the first, without a request to the detector. *)
Theorem colliding_texts_share_cache_entry a b rest label reply cache :
  hash_loop 0 a = hash_loop 0 b →
  (50 <= String.length (a ++ rest))%nat →
  (50 <= String.length (b ++ rest))%nat →
  cache !! hashString (a ++ rest) = None →
  hashString (a ++ rest) = hashString (b ++ rest) ∧
  ∃ p cache',
    getAIProbability (a ++ rest) (Reply label) cache = (p, cache', [a ++ rest]) ∧
    getAIProbability (b ++ rest) reply cache' = (p, cache', []).
Proof.
  intros Hab Ha Hb Hmiss.
  assert (hashString (a ++ rest) = hashString (b ++ rest)) as Hkey.
  { unfold hashString. by rewrite !hash_loop_app, Hab. }
  split; [done|].
  unfold getAIProbability, getAIProbability_start.
  destruct (String.length (a ++ rest) <? 50)%nat eqn:Hla;
    [apply Nat.ltb_lt in Hla; lia|].
  destruct (String.length (b ++ rest) <? 50)%nat eqn:Hlb;
    [apply Nat.ltb_lt in Hlb; lia|].
  rewrite Hmiss. simpl.
  eexists _, _. split; [reflexivity|].
  by rewrite <- Hkey, lookup_insert_eq.
Qed.

Lemma colliding_texts_share_cache_entry_witness :
  "Aa" ++ long_text ≠ "BB" ++ long_text ∧
  hashString ("Aa" ++ long_text) = hashString ("BB" ++ long_text) ∧
  ∃ p cache',
    getAIProbability ("Aa" ++ long_text) (Reply (Some 0%Z)) ∅
    = (p, cache', ["Aa" ++ long_text]) ∧
    getAIProbability ("BB" ++ long_text) (Reply (Some 1%Z)) cache' = (p, cache', []).
Proof.
  split; [discriminate|].
  apply (colliding_texts_share_cache_entry "Aa" "BB" long_text (Some 0%Z)
           (Reply (Some 1%Z)) ∅).
  - reflexivity.
  - vm_compute. lia.
  - vm_compute. lia.
  - reflexivity.
Defined.

(* ===================================================================== *)
(** ** calculateOverallAnalysis on arbitrary segment lists               *)
(* ===================================================================== *)

Lemma not_ai_and_human p :
  Qle_bool 0.7 p = true → Qle_bool p 0.3 = true → False.
Proof. rewrite !Qle_bool_iff. intros H1 H2. lra. Qed.

Lemma counts_partition segments :
  (count_ai segments + count_human segments
   + length (List.filter (fun s => negb (Qle_bool 0.7 (ai_probability s))
                                   && negb (Qle_bool (ai_probability s) 0.3))
               segments)
   = length segments)%nat.
Proof.
  unfold count_ai, count_human.
  induction segments as [|s segments IH]; simpl; [done|].
  destruct (Qle_bool 0.7 (ai_probability s)) eqn:Hai;
    destruct (Qle_bool (ai_probability s) 0.3) eqn:Hhu; simpl; try lia.
  destruct (not_ai_and_human _ Hai Hhu).
Qed.

(** X4.  The three counts of the sentence statistics partition the
    segments: AI-like, human-like and neutral segments add up to the total,
    the neutral count is never negative, and it is the number of segments
    whose probability lies strictly between 0.3 and 0.7. *)
Theorem sentence_stats_partition segments :
  let st := sentence_stats (calculateOverallAnalysis segments) in
  total_sentences st = length segments ∧
  (Z.of_nat (ai_sentences st) + Z.of_nat (human_sentences st)
   + neutral_sentences st = Z.of_nat (total_sentences st))%Z ∧
  (0 <= neutral_sentences st)%Z ∧
  neutral_sentences st
  = Z.of_nat (length (List.filter
                        (fun s => Qlt_bool 0.3 (ai_probability s)
                                  && Qlt_bool (ai_probability s) 0.7)
                        segments)).
Proof.
  pose proof (counts_partition segments) as H. simpl.
  assert (List.filter (fun s => Qlt_bool 0.3 (ai_probability s)
                                && Qlt_bool (ai_probability s) 0.7) segments
          = List.filter (fun s => negb (Qle_bool 0.7 (ai_probability s))
                                  && negb (Qle_bool (ai_probability s) 0.3)) segments)
    as ->.
  { apply filter_ext. intros s. unfold Qlt_bool. apply andb_comm. }
  repeat split; lia.
Qed.

Lemma sum_bounds segments : ∀ a,
  (∀ s, In s segments → (0 <= ai_probability s)%Q ∧ (ai_probability s <= 1)%Q) →
  (a <= fold_left (fun sum s => sum + ai_probability s) segments a)%Q ∧
  (fold_left (fun sum s => sum + ai_probability s) segments a
   <= a + of_nat (length segments))%Q.
Proof.
  induction segments as [|s segments IH]; intros a Hall.
  - simpl. change (of_nat 0) with 0%Q. split; lra.
  - destruct (Hall s (or_introl eq_refl)) as [H0 H1].
    destruct (IH (a + ai_probability s)%Q) as [Hlo Hhi].
    { intros s' Hs'. apply Hall. by right. }
    change (length (s :: segments)) with (S (length segments)).
    rewrite of_nat_S. simpl. split; lra.
Qed.

(** X5.  Whatever the segment list, if every segment probability lies in
    [0,1] then so does the overall probability; the empty list gives 0. *)
Theorem overall_probability_in_unit_interval segments :
  (∀ s, In s segments → (0 <= ai_probability s)%Q ∧ (ai_probability s <= 1)%Q) →
  (0 <= overall_ai_probability (calculateOverallAnalysis segments))%Q ∧
  (overall_ai_probability (calculateOverallAnalysis segments) <= 1)%Q.
Proof.
  intros Hall. simpl. unfold sum_probability.
  destruct (sum_bounds segments 0%Q Hall) as [Hlo Hhi].
  set (sum := fold_left _ segments 0%Q) in *.
  case_decide as Hlen.
  - rewrite Hlen in Hhi. change (of_nat 0) with 0%Q in Hhi.
    change (of_nat 1) with 1%Q.
    split.
    + apply Qle_shift_div_l; lra.
    + apply Qle_shift_div_r; lra.
  - assert (0 < of_nat (length segments))%Q as Hpos by (apply of_nat_pos; lia).
    split.
    + apply Qle_shift_div_l; lra.
    + apply Qle_shift_div_r; lra.
Qed.

Lemma overall_probability_in_unit_interval_witness :
  (0 <= overall_ai_probability
          (calculateOverallAnalysis [scored 0.9; scored 0.95; scored 0.1]))%Q ∧
  (overall_ai_probability
     (calculateOverallAnalysis [scored 0.9; scored 0.95; scored 0.1]) <= 1)%Q.
Proof.
  apply overall_probability_in_unit_interval.
  intros s [<-|[<-|[<-|[]]]]; simpl; split; by apply Qle_bool_imp_le.
Defined.

(* ===================================================================== *)
(** ** The summary of a completed job                                    *)
(* ===================================================================== *)

Lemma count_ai_uniform p ws :
  count_ai (segments_of p ws) = if Qle_bool 0.7 p then length ws else 0%nat.
Proof.
  unfold count_ai, segments_of.
  induction ws as [|w ws IH]; simpl; [by destruct (Qle_bool 0.7 p)|].
  destruct (Qle_bool 0.7 p); simpl; by rewrite ?IH.
Qed.

Lemma count_human_uniform p ws :
  count_human (segments_of p ws) = if Qle_bool p 0.3 then length ws else 0%nat.
Proof.
  unfold count_human, segments_of.
  induction ws as [|w ws IH]; simpl; [by destruct (Qle_bool p 0.3)|].
  destruct (Qle_bool p 0.3); simpl; by rewrite ?IH.
Qed.

Lemma of_nat_nonneg n : (0 <= of_nat n)%Q.
Proof.
  unfold of_nat. change 0%Q with (inject_Z 0). rewrite <- Zle_Qle. lia.
Qed.

Lemma more_than_80_percent_all n :
  (0 < n)%nat → Qlt_bool (of_nat n * 0.8) (of_nat n) = true.
Proof.
  intros Hn. unfold Qlt_bool.
  destruct (Qle_bool (of_nat n) (of_nat n * 0.8)) eqn:H; [|done].
  apply Qle_bool_iff in H. pose proof (of_nat_pos n Hn). lra.
Qed.

Lemma more_than_80_percent_none n :
  Qlt_bool (of_nat n * 0.8) (of_nat 0) = false.
Proof.
  unfold Qlt_bool.
  assert (Qle_bool (of_nat 0) (of_nat n * 0.8) = true) as ->; [|done].
  apply Qle_bool_iff. change (of_nat 0) with 0%Q.
  pose proof (of_nat_nonneg n). lra.
Qed.

(** The summary of a non-empty list whose segments all carry [p]. *)
Lemma uniform_summary p ws :
  ws ≠ [] →
  let a := calculateOverallAnalysis (segments_of p ws) in
  let n := length ws in
  total_sentences (sentence_stats a) = n ∧
  ai_sentences (sentence_stats a) = (if Qle_bool 0.7 p then n else 0%nat) ∧
  human_sentences (sentence_stats a) = (if Qle_bool p 0.3 then n else 0%nat) ∧
  overall_prediction a
  = (if Qle_bool 0.7 p then "AI-Generated Content"
     else if Qle_bool 0.5 p then "Mixed Content" else "Human-Generated Content") ∧
  confidence_level a = (if Qle_bool 0.7 p || Qle_bool p 0.3 then high else medium).
Proof.
  intros Hws a n.
  assert (0 < n)%nat as Hn by (subst n; destruct ws; [done | simpl; lia]).
  pose proof (mean_of_uniform p ws Hws) as Hmean. fold a in Hmean.
  split; [apply length_segments_of|].
  split; [apply count_ai_uniform|].
  split; [apply count_human_uniform|].
  split.
  - change (overall_prediction a)
      with (if Qle_bool 0.7 (overall_ai_probability a) then "AI-Generated Content"
            else if Qle_bool 0.5 (overall_ai_probability a) then "Mixed Content"
            else "Human-Generated Content").
    by rewrite !Hmean.
  - change (confidence_level a)
      with (if Qlt_bool (of_nat (length (segments_of p ws)) * 0.8)
                 (of_nat (count_ai (segments_of p ws)))
               || Qlt_bool (of_nat (length (segments_of p ws)) * 0.8)
                    (of_nat (count_human (segments_of p ws)))
            then high else medium).
    rewrite length_segments_of, count_ai_uniform, count_human_uniform.
    fold n.
    destruct (Qle_bool 0.7 p), (Qle_bool p 0.3);
      rewrite ?more_than_80_percent_all, ?more_than_80_percent_none by done;
      done.
Qed.

(** X6.  In every reachable state the summary of a job with segments is
    all-or-nothing: since every segment carries the one probability [p] of
    the job, either all segments count as AI-like (p = 0.8, prediction AI,
    confidence high), or all as human-like (p = 0.2, prediction human,
    confidence high), or all as neutral (p = 0.5, prediction mixed,
    confidence medium). *)
Theorem summary_is_all_or_nothing ls (id : nat) r oa :
  results (run init ls) !! id = Some r → overallAnalysis r = Some oa →
  transcript r ≠ [] →
  let n := length (transcript r) in
  let st := sentence_stats oa in
  total_sentences st = n ∧
  ((ai_sentences st = n ∧ human_sentences st = 0%nat ∧ neutral_sentences st = 0%Z ∧
    overall_prediction oa = "AI-Generated Content" ∧ confidence_level oa = high ∧
    ∀ seg, In seg (transcript r) → ai_probability seg = 0.8%Q)
   ∨ (ai_sentences st = 0%nat ∧ human_sentences st = n ∧ neutral_sentences st = 0%Z ∧
      overall_prediction oa = "Human-Generated Content" ∧ confidence_level oa = high ∧
      ∀ seg, In seg (transcript r) → ai_probability seg = 0.2%Q)
   ∨ (ai_sentences st = 0%nat ∧ human_sentences st = 0%nat ∧
      neutral_sentences st = Z.of_nat n ∧
      overall_prediction oa = "Mixed Content" ∧ confidence_level oa = medium ∧
      ∀ seg, In seg (transcript r) → ai_probability seg = 0.5%Q)).
Proof.
  intros Hr Hsum Hsegs n st.
  destruct (inv_job _ (run_inv ls) id r Hr) as [_ [rn [_ Hok]]].
  job_cases Hok; try destruct Hun as (_ & _ & _ & Hoa); try congruence.
  rewrite Hoa in Hsum. injection Hsum as <-.
  assert (ws ≠ []) as Hws by (intros ->; by rewrite Htr in Hsegs).
  assert (∀ seg, In seg (transcript r) → ai_probability seg = p) as Hall.
  { intros seg Hseg. rewrite Htr in Hseg. unfold segments_of in Hseg.
    by apply in_map_iff in Hseg as [w [<- _]]. }
  assert (n = length ws) as Hn by (subst n; by rewrite Htr, length_segments_of).
  subst st. revert Hall. rewrite Htr.
  destruct (uniform_summary p ws Hws) as (Ht & Ha & Hh & Hpred & Hconf).
  assert (Z.of_nat (ai_sentences (sentence_stats (calculateOverallAnalysis (segments_of p ws))))
          + Z.of_nat (human_sentences (sentence_stats (calculateOverallAnalysis (segments_of p ws))))
          + neutral_sentences (sentence_stats (calculateOverallAnalysis (segments_of p ws)))
          = Z.of_nat (total_sentences (sentence_stats (calculateOverallAnalysis (segments_of p ws)))))%Z
    as Hpart by (simpl; lia).
  rewrite Ht, Ha, Hh in Hpart. rewrite <- Hn in *.
  intros Hall. split; [done|].
  destruct Hp as [-> | [-> | ->]]; vm_compute Qle_bool in *.
  - right. left. simpl in *. repeat split; try done; lia.
  - left. simpl in *. repeat split; try done; lia.
  - right. right. simpl in *. repeat split; try done; lia.
Qed.

Lemma summary_is_all_or_nothing_witness :
  ∃ r oa,
    results (run init spoken_run) !! 0%nat = Some r ∧ overallAnalysis r = Some oa ∧
    total_sentences (sentence_stats oa) = length (transcript r) ∧
    neutral_sentences (sentence_stats oa) = 2%Z ∧
    overall_prediction oa = "Mixed Content".
Proof.
  eexists. eexists. split; [vm_compute; reflexivity|]. split; [reflexivity|].
  destruct (summary_is_all_or_nothing spoken_run 0%nat _ _ eq_refl eq_refl)
    as [Ht [H|[H|H]]].
  - discriminate.
  - destruct H as (_ & _ & _ & H & _). discriminate H.
  - destruct H as (_ & _ & _ & H & _). discriminate H.
  - destruct H as (_ & _ & Hn & Hp & _). split; [exact Ht|]. split; [exact Hn | exact Hp].
Defined.

(* ===================================================================== *)
(** ** analyzeTranscript                                                 *)
(* ===================================================================== *)

(** X7.  [analyzeTranscript] returns one segment per raw unit, in order
    and with the unit's text; all segments carry one probability; at most
    one request is sent, with the joined text.  The units are those of
    [words] whenever [words] is present: an empty [words] array gives no
    segment at all, even when [segments] has units. *)
Theorem analyzeTranscript_one_segment_per_unit t reply cache :
  let '(segs, _, sent) := analyzeTranscript t reply cache in
  map text segs = map unit_text (words_of t) ∧
  length segs = length (words_of t) ∧
  (∃ p, ∀ seg, In seg segs → ai_probability seg = p) ∧
  (sent = [] ∨ sent = [joined_text (words_of t)]) ∧
  (∀ ws, t_words t = Some ws → length segs = length ws).
Proof.
  unfold analyzeTranscript.
  assert (∀ ws, t_words t = Some ws → words_of t = ws) as Hwords.
  { intros ws H. unfold words_of. by rewrite H. }
  destruct (words_of t) as [|w ws] eqn:Hw.
  - repeat split; try done; [by exists 0.5%Q | by left |].
    intros ws H. by rewrite <- (Hwords ws H).
  - unfold getAIProbability.
    destruct (getAIProbability_start _ cache) as [p|h].
    + rewrite map_text_segments_of, length_segments_of.
      repeat split; try done; [|by left|].
      * exists p. intros seg Hseg. unfold segments_of in Hseg.
        by apply in_map_iff in Hseg as [u [<- _]].
      * intros ws' H. by rewrite <- (Hwords ws' H).
    + destruct (getAIProbability_finish h reply cache) as [p c'].
      rewrite map_text_segments_of, length_segments_of.
      repeat split; try done; [|by right|].
      * exists p. intros seg Hseg. unfold segments_of in Hseg.
        by apply in_map_iff in Hseg as [u [<- _]].
      * intros ws' H. by rewrite <- (Hwords ws' H).
Qed.

Lemma analyzeTranscript_one_segment_per_unit_witness :
  (analyzeTranscript words_empty_segments_full NoReply ∅).1.1 = [].
Proof.
  pose proof (analyzeTranscript_one_segment_per_unit
                words_empty_segments_full NoReply ∅) as H.
  destruct (analyzeTranscript words_empty_segments_full NoReply ∅) as [[segs c] sent].
  destruct H as (_ & _ & _ & _ & H).
  specialize (H [] eq_refl). simpl. by destruct segs.
Defined.

(* ===================================================================== *)
(** ** What the log and the cache keep                                   *)
(* ===================================================================== *)

Lemma start_asked_long text c h :
  getAIProbability_start text c = Asked h → (50 <= String.length text)%nat.
Proof.
  unfold getAIProbability_start.
  destruct (String.length text <? 50)%nat eqn:H; [done|].
  intros _. by apply Nat.ltb_ge in H.
Qed.

Lemma step_requests_long s l :
  Forall request_ok (log s) → Forall request_ok (log (step s l)).
Proof.
  intros Hlog.
  destruct l as [url valid now|id o|id o|id o|id reply|id removed]; simpl;
    unfold analyzeVideo, resume_barrier, resume_transcribed, resume_classified,
      caught, finish, unlink_settled;
    repeat case_match; simpl; try done;
    repeat (apply Forall_cons; split; [simpl; eauto using start_asked_long|]);
    done.
Qed.

(** X8.  Whatever happens, a text shorter than 50 characters is never sent
    to the detector: every request in the log carries at least 50
    characters. *)
Theorem short_text_is_never_sent ls (id : nat) t :
  In (EvRequest id t) (log (run init ls)) → (50 <= String.length t)%nat.
Proof.
  assert (∀ s, Forall request_ok (log s) → Forall request_ok (log (run s ls))) as H.
  { induction ls as [|l ls IH]; intros s Hs; [done|].
    simpl. apply IH. by apply step_requests_long. }
  specialize (H init (Forall_nil_2 _)).
  rewrite Forall_forall in H. intros Hin.
  apply list_elem_of_In in Hin. apply (H _ Hin).
Qed.

Lemma step_cache_keeps s l h :
  is_Some (cache s !! h) → is_Some (cache (step s l) !! h).
Proof.
  intros Hh.
  destruct l as [url valid now|id o|id o|id o|id reply|id removed]; simpl;
    unfold analyzeVideo, resume_barrier, resume_transcribed, resume_classified,
      caught, finish, unlink_settled, getAIProbability_finish;
    repeat case_match; simplify_eq; simpl; try done;
    (rewrite lookup_insert;
     match goal with
     | |- context [decide (?k = h)] => destruct (decide (k = h))
     end; [by eexists | done]).
Qed.

(** X9.  The cache never evicts: a fingerprint that has an entry keeps an
    entry in every later state (its value may be overwritten by the reply
    to another request for the same fingerprint). *)
Theorem cache_never_evicts s ls h :
  is_Some (cache s !! h) → is_Some (cache (run s ls) !! h).
Proof.
  revert s. induction ls as [|l ls IH]; intros s Hs; [done|].
  simpl. apply IH. by apply step_cache_keeps.
Qed.

Lemma short_text_is_never_sent_witness :
  (50 <= String.length (joined_text [spoken long_text; spoken "indeed"]))%nat.
Proof.
  apply (short_text_is_never_sent long_run 0%nat).
  vm_compute. left. reflexivity.
Defined.

Lemma cache_never_evicts_witness :
  is_Some (cache (run (run init (long_run ++ [Classified 0 (Reply (Some 0%Z))]))
                    (silent_run ++ speech_failure_run))
           !! hashString (joined_text [spoken long_text; spoken "indeed"])).
Proof.
  apply cache_never_evicts. vm_compute. eexists. reflexivity.
Defined.

(* ===================================================================== *)
(** ** Soft and hard failures in the pipeline                            *)
(* ===================================================================== *)

(** X10.  A failed or timed-out request to the detector does not fail the
    job: when the reply to a job's request is a failure, the job completes
    at once, every segment carries 0.5, the summary says "Mixed Content"
    with confidence medium, and the cache is left as it was. *)
Theorem detector_failure_is_absorbed ls (id : nat) rn audioPath words hash :
  runs (run init ls) !! id = Some rn → phase rn = AtClassify audioPath words hash →
  cache (step (run init ls) (Classified id NoReply)) = cache (run init ls) ∧
  ∃ r oa,
    results (step (run init ls) (Classified id NoReply)) !! id = Some r ∧
    status r = st_completed ∧ error r = None ∧
    transcript r = segments_of 0.5 words ∧ transcript r ≠ [] ∧
    overallAnalysis r = Some oa ∧
    overall_prediction oa = "Mixed Content" ∧ confidence_level oa = medium.
Proof.
  intros Hrn Hphase.
  destruct (job_of_run _ id rn (run_inv ls) Hrn) as [r [Hr [Hid Hok]]].
  job_cases Hok; try congruence.
  rewrite Hph in Hphase. injection Hphase as <- <- <-.
  destruct Hun as (Hst & Her & Htr & Hoa).
  simpl. rewrite Hrn, Hph. unfold resume_classified. simpl.
  split; [done|].
  rewrite lookup_alter_eq, Hr. simpl.
  eexists _, _. split; [reflexivity|]. simpl.
  destruct (uniform_summary 0.5 ws Hws) as (_ & _ & _ & Hpred & Hconf).
  repeat split; try done.
  destruct ws; [done | discriminate].
Qed.

Lemma detector_failure_is_absorbed_witness :
  ∃ r oa,
    results (step (run init long_run) (Classified 0 NoReply)) !! 0%nat = Some r ∧
    status r = st_completed ∧ error r = None ∧
    transcript r = segments_of 0.5 [spoken long_text; spoken "indeed"] ∧
    transcript r ≠ [] ∧
    overallAnalysis r = Some oa ∧
    overall_prediction oa = "Mixed Content" ∧ confidence_level oa = medium.
Proof.
  apply (detector_failure_is_absorbed long_run 0%nat
           {| phase := AtClassify (outputPath 0) [spoken long_text; spoken "indeed"]
                         (hashString (joined_text [spoken long_text; spoken "indeed"]));
              shot := Fulfilled "https://i.ibb.co/v.png";
              audio := Fulfilled (outputPath 0) |}
           (outputPath 0) [spoken long_text; spoken "indeed"]
           (hashString (joined_text [spoken long_text; spoken "indeed"]))).
  - vm_compute. reflexivity.
  - reflexivity.
Defined.

(** X11.  When the transcription of a job fails with message [msg], the
    job record gets the status [error] and the detail [msg]; it has no
    segment and no summary; it keeps the thumbnail reference stored after
    the acquisition; and it stays so in every later state. *)
Theorem transcription_failure_marks_error ls ls' (id : nat) rn audioPath msg :
  runs (run init ls) !! id = Some rn → phase rn = AtTranscribe audioPath →
  ∃ r thumbnail,
    results (run init (ls ++ Transcribed id (SpeechError msg) :: ls')) !! id = Some r ∧
    status r = st_error ∧ error r = Some msg ∧
    transcript r = [] ∧ overallAnalysis r = None ∧
    shot rn = Fulfilled thumbnail ∧ screenshotPath r = thumbnail.
Proof.
  intros Hrn Hphase.
  pose proof (run_inv ls) as Hinv.
  destruct (job_of_run _ id rn Hinv Hrn) as [r [Hr [Hid Hok]]].
  job_cases Hok; try congruence.
  destruct Hun as (Hst & Her & Htr & Hoa).
  assert (results (step (run init ls) (Transcribed id (SpeechError msg))) !! id
          = Some (write_error msg r)) as Hstep.
  { simpl. rewrite Hrn, Hphase. simpl. by rewrite lookup_alter_eq, Hr. }
  exists (write_error msg r), (screenshotPath r).
  rewrite run_app, run_cons.
  split; [|by simpl].
  apply terminal_run; [by apply step_inv | done | done].
Qed.

Lemma transcription_failure_marks_error_witness :
  ∃ r thumbnail,
    results (run init ([Submit "https://youtu.be/v" true 0;
                        ThumbnailSettled 0 (Captured (Uploaded "https://i.ibb.co/v.png"));
                        AudioSettled 0 AudioSaved]
                       ++ Transcribed 0 (SpeechError "quota exceeded")
                       :: silent_run)) !! 0%nat = Some r ∧
    status r = st_error ∧ error r = Some "quota exceeded" ∧
    transcript r = [] ∧ overallAnalysis r = None ∧
    Fulfilled "https://i.ibb.co/v.png" = Fulfilled thumbnail ∧
    screenshotPath r = thumbnail.
Proof.
  apply (transcription_failure_marks_error
           [Submit "https://youtu.be/v" true 0;
            ThumbnailSettled 0 (Captured (Uploaded "https://i.ibb.co/v.png"));
            AudioSettled 0 AudioSaved]
           silent_run 0%nat
           {| phase := AtTranscribe (outputPath 0);
              shot := Fulfilled "https://i.ibb.co/v.png";
              audio := Fulfilled (outputPath 0) |}
           (outputPath 0) "quota exceeded").
  - vm_compute. reflexivity.
  - reflexivity.
Defined.

(** X12.  A job whose audio extraction was rejected never gets a
    thumbnail reference: in every reachable state its [screenshotPath] is
    the empty string, also after the thumbnail capture has succeeded, and
    its record is the error record of that rejection. *)
Theorem audio_failure_drops_thumbnail ls (id : nat) r rn msg :
  results (run init ls) !! id = Some r → runs (run init ls) !! id = Some rn →
  audio rn = Rejected msg →
  screenshotPath r = "" ∧ status r = st_error ∧ error r = Some msg ∧
  phase rn = Returned.
Proof.
  intros Hr Hrn Hrej.
  destruct (inv_job _ (run_inv ls) id r Hr) as [_ [rn' [Hrn' Hok]]].
  rewrite Hrn in Hrn'. injection Hrn' as <-.
  job_cases Hok; try congruence.
  - rewrite Hrej in Hall. by destruct (shot rn).
  - assert (m = msg) as -> by congruence. done.
Qed.

Lemma audio_failure_drops_thumbnail_witness :
  ∃ r rn,
    results (run init (audio_failure_run
                       ++ [ThumbnailSettled 0 (Captured (Uploaded "https://i.ibb.co/v.png"))]))
      !! 0%nat = Some r ∧
    runs (run init (audio_failure_run
                    ++ [ThumbnailSettled 0 (Captured (Uploaded "https://i.ibb.co/v.png"))]))
      !! 0%nat = Some rn ∧
    shot rn = Fulfilled "https://i.ibb.co/v.png" ∧
    screenshotPath r = "" ∧ status r = st_error ∧
    error r = Some "ffmpeg exited with code 1" ∧ phase rn = Returned.
Proof.
  eexists. eexists.
  split; [vm_compute; reflexivity|]. split; [vm_compute; reflexivity|].
  split; [reflexivity|].
  eapply (audio_failure_drops_thumbnail
            (audio_failure_run
             ++ [ThumbnailSettled 0 (Captured (Uploaded "https://i.ibb.co/v.png"))])
            0%nat).
  - vm_compute. reflexivity.
  - vm_compute. reflexivity.
  - reflexivity.
Defined.

(* ===================================================================== *)
(** ** Status, runs and other jobs                                       *)
(* ===================================================================== *)

(** X13.  Every record in the store has a run, and its status is
    [processing] exactly as long as that run is suspended on an external
    promise; while the run waits at the barrier, at least one of the two
    acquisition promises is pending. *)
Theorem processing_iff_suspended ls (id : nat) r :
  results (run init ls) !! id = Some r →
  ∃ rn, runs (run init ls) !! id = Some rn ∧
        (status r = st_processing ↔ phase rn ≠ Returned) ∧
        (phase rn = AtBarrier → shot rn = Pending ∨ audio rn = Pending).
Proof.
  intros Hr.
  destruct (inv_job _ (run_inv ls) id r Hr) as [_ [rn [Hrn Hok]]].
  exists rn. split; [done|].
  job_cases Hok; try destruct Hun as (Hst & _); rewrite Hph, ?Hst;
    (split; [split; try done; try congruence|]); try done.
  intros _. destruct (shot rn), (audio rn); try discriminate; auto.
Qed.

Lemma processing_iff_suspended_witness :
  ∃ rn, runs (run init long_run) !! 0%nat = Some rn ∧
        phase rn ≠ Returned.
Proof.
  destruct (processing_iff_suspended long_run 0%nat _ eq_refl)
    as (rn & Hrn & [Hiff _] & _).
  exists rn. split; [exact Hrn|]. apply Hiff. reflexivity.
Defined.

(** X14.  Jobs are isolated in the store: events addressed to other jobs,
    and submissions, change neither the record nor the run of a job. *)
Theorem other_jobs_do_not_interfere ls ls' (id : nat) r :
  results (run init ls) !! id = Some r → Forall (foreign id) ls' →
  results (run init (ls ++ ls')) !! id = Some r ∧
  runs (run init (ls ++ ls')) !! id = runs (run init ls) !! id.
Proof.
  intros Hr Hf.
  pose proof (in_store_lt _ id r (run_inv ls) Hr) as Hlt.
  destruct (run_foreign ls' _ id Hlt Hf) as (H1 & H2 & _).
  rewrite run_app. by rewrite H1, H2.
Qed.

Lemma other_jobs_do_not_interfere_witness :
  ∃ r, results (run init [Submit "https://youtu.be/a" true 0]) !! 0%nat = Some r ∧
       results (run init ([Submit "https://youtu.be/a" true 0]
                          ++ [Submit "https://youtu.be/b" true 5;
                              AudioSettled 1 (AudioError "no audio");
                              ThumbnailSettled 1 (CaptureFailed "timeout")]))
         !! 0%nat = Some r.
Proof.
  eexists. split; [vm_compute; reflexivity|].
  apply (other_jobs_do_not_interfere [Submit "https://youtu.be/a" true 0]).
  - vm_compute. reflexivity.
  - repeat constructor; simpl; lia.
Defined.

(* ===================================================================== *)
(** ** What a record keeps and what a submission does                    *)
(* ===================================================================== *)

Lemma step_identity s l (id : nat) r :
  results s !! id = Some r → (id < next_id s)%nat →
  ∃ r', results (step s l) !! id = Some r' ∧ same_identity r r'.
Proof.
  intros Hr Hlt. unfold same_identity.
  destruct l as [url valid now|j o|j o|j o|j reply|j removed]; simpl;
    unfold analyzeVideo, resume_barrier, resume_transcribed, resume_classified,
      caught, finish, unlink_settled;
    repeat case_match; simpl;
    rewrite ?lookup_alter, ?lookup_insert_ne by lia;
    repeat case_decide; subst; rewrite ?Hr; simpl; eauto.
Qed.

(** X15.  No record is ever removed from the store or replaced by
    another job's: in every later state the identifier still has a record,
    with the same identifier, source URL and creation time. *)
Theorem record_identity_is_kept ls ls' (id : nat) r :
  results (run init ls) !! id = Some r →
  job_id r = id ∧
  ∃ r', results (run init (ls ++ ls')) !! id = Some r' ∧
        job_id r' = id ∧ videoUrl r' = videoUrl r ∧ createdAt r' = createdAt r.
Proof.
  intros Hr.
  destruct (inv_job _ (run_inv ls) id r Hr) as [Hid _].
  pose proof (in_store_lt _ id r (run_inv ls) Hr) as Hlt.
  split; [done|]. rewrite run_app.
  assert (∀ s r0, results s !! id = Some r0 → (id < next_id s)%nat →
            ∃ r', results (run s ls') !! id = Some r' ∧ same_identity r0 r') as H.
  { induction ls' as [|l ls' IH]; intros s r0 Hr0 Hlt0.
    - exists r0. by repeat split.
    - destruct (step_identity s l id r0 Hr0 Hlt0) as (r1 & Hr1 & H1 & H2 & H3).
      pose proof (step_next_id s l) as Hle.
      destruct (IH (step s l) r1 Hr1) as (r2 & Hr2 & H4 & H5 & H6); [lia|].
      exists r2. split; [done|]. unfold same_identity. split; [|split]; congruence. }
  destruct (H _ r Hr Hlt) as (r' & Hr' & H1 & H2 & H3).
  exists r'. repeat split; congruence.
Qed.

Lemma record_identity_is_kept_witness :
  ∃ r', results (run init ([Submit "https://youtu.be/v" true 7] ++ tl silent_run))
          !! 0%nat = Some r' ∧
        job_id r' = 0%nat ∧ videoUrl r' = "https://youtu.be/v" ∧ createdAt r' = 7%Z.
Proof.
  destruct (record_identity_is_kept [Submit "https://youtu.be/v" true 7]
              (tl silent_run) 0%nat
              {| job_id := 0; videoUrl := "https://youtu.be/v";
                 screenshotPath := ""; transcript := [];
                 overallAnalysis := None; createdAt := 7;
                 status := st_processing; error := None |}) as [_ H].
  - vm_compute. reflexivity.
  - exact H.
Defined.

(** X16.  A rejected URL changes nothing at all.  An accepted submission
    takes an identifier that had no record, stores a record in
    [processing] with no thumbnail reference, no segment, no summary and
    no error detail, leaves every other record as it was, and makes the
    store one record larger. *)
Theorem submission_creates_one_record ls url now :
  let s := run init ls in
  let id := next_id s in
  analyzeVideo url false now s = s ∧
  results s !! id = None ∧
  results (analyzeVideo url true now s) !! id
  = Some {| job_id := id; videoUrl := url; screenshotPath := "";
            transcript := []; overallAnalysis := None; createdAt := now;
            status := st_processing; error := None |} ∧
  (∀ j : nat, j ≠ id →
     results (analyzeVideo url true now s) !! j = results s !! j) ∧
  size (results (analyzeVideo url true now s)) = S (size (results s)).
Proof.
  intros s id.
  destruct (inv_next s (run_inv ls) id) as [Hnone _]; [subst id; lia|].
  split; [done|]. split; [done|]. simpl.
  split; [by rewrite lookup_insert_eq|].
  split; [intros j Hj; by rewrite lookup_insert_ne|].
  by apply map_size_insert_None.
Qed.

Lemma submission_creates_one_record_witness :
  results (analyzeVideo "https://youtu.be/b" true 3 (run init silent_run)) !! 0%nat
  = results (run init silent_run) !! 0%nat.
Proof.
  apply (submission_creates_one_record silent_run "https://youtu.be/b" 3).
  vm_compute. lia.
Defined.

(* ===================================================================== *)
(** ** The audio file of a completed job                                 *)
(* ===================================================================== *)

Lemma resume_barrier_files (j : nat) rn s : files (resume_barrier j rn s) = files s.
Proof. unfold resume_barrier, caught. by repeat case_match. Qed.

(** A file appears on disk only when an audio extraction ends well. *)
Lemma step_files s l path :
  path ∈ files (step s l) →
  path ∈ files s ∨
  ∃ (j : nat) rn, l = AudioSettled j AudioSaved ∧ runs s !! j = Some rn ∧
                  audio rn = Pending ∧ path = outputPath j.
Proof.
  destruct l as [url valid now|j o|j o|j o|j reply|j removed]; simpl.
  - unfold analyzeVideo. destruct valid; simpl; auto.
  - destruct (runs s !! j) as [rn|]; [|auto].
    destruct (shot rn); auto. rewrite resume_barrier_files. auto.
  - destruct (runs s !! j) as [rn|] eqn:Hrn; [|auto].
    destruct (audio rn) eqn:Haudio; auto.
    destruct o; rewrite resume_barrier_files; simpl; [|auto].
    rewrite elem_of_union, elem_of_singleton. intros [?| ->]; [auto|].
    right. by exists j, rn.
  - destruct (runs s !! j) as [rn|]; [|auto].
    destruct (phase rn); auto.
    destruct o; unfold resume_transcribed, finish, caught;
      repeat case_match; simpl; auto.
  - destruct (runs s !! j) as [rn|]; [|auto].
    destruct (phase rn); auto.
    unfold resume_classified, finish.
    destruct (getAIProbability_finish _ _ _). simpl. auto.
  - unfold unlink_settled. case_match; simpl; [|auto].
    rewrite elem_of_difference. intros [? _]. auto.
Qed.

(** A file leaves the disk only when its deletion settles well. *)
Lemma step_keeps_file s l (id : nat) :
  l ≠ UnlinkSettled id true →
  outputPath id ∈ files s → outputPath id ∈ files (step s l).
Proof.
  intros Hl Hfile.
  destruct l as [url valid now|j o|j o|j o|j reply|j removed]; simpl.
  - unfold analyzeVideo. by destruct valid.
  - destruct (runs s !! j) as [rn|]; [|done].
    destruct (shot rn); try done. by rewrite resume_barrier_files.
  - destruct (runs s !! j) as [rn|]; [|done].
    destruct (audio rn); try done.
    destruct o; rewrite resume_barrier_files; simpl; [|done].
    apply elem_of_union. by left.
  - destruct (runs s !! j) as [rn|]; [|done].
    destruct (phase rn); try done.
    destruct o; unfold resume_transcribed, finish, caught;
      repeat case_match; simpl; done.
  - destruct (runs s !! j) as [rn|]; [|done].
    destruct (phase rn); try done.
    unfold resume_classified, finish.
    by destruct (getAIProbability_finish _ _ _).
  - unfold unlink_settled. destruct removed; simpl; [|done].
    case_match; simpl; [|done].
    apply elem_of_difference. split; [done|].
    rewrite elem_of_singleton. intros Hpath.
    apply outputPath_inj in Hpath. congruence.
Qed.

(** [fs.unlink] has been called on the audio file of a completed job. *)
Lemma completed_unlink_called s (id : nat) r :
  inv s → results s !! id = Some r → status r = st_completed →
  unlinked (outputPath id) (log s) = true.
Proof.
  intros Hinv Hr Hdone.
  destruct (inv_job _ Hinv id r Hr) as [_ [rn [_ Hok]]].
  job_cases Hok; try destruct Hun as (Hst & _); try congruence.
  rewrite <- unlinked_job_log.
  destruct Hjl as [[_ ->]|[_ [->| ->]]]; simpl; by rewrite bool_decide_eq_true_2.
Qed.

(** The step in which a job becomes [completed] leaves its file on disk. *)
Lemma completing_step_file s l (id : nat) rn r' :
  inv s → runs s !! id = Some rn → phase rn ≠ Returned →
  results (step s l) !! id = Some r' → status r' = st_completed →
  outputPath id ∈ files (step s l).
Proof.
  intros Hinv Hrn Hrun Hr' Hdone.
  destruct (job_of_run _ id rn Hinv Hrn) as [r [Hr [_ Hok]]].
  assert (status r = st_processing ∧
          (phase rn ≠ AtBarrier → outputPath id ∈ files s)) as [Hproc Hfile].
  { job_cases Hok; try destruct Hun as (Hst & _); try congruence;
      (split; [done|]); intros; done. }
  (* only the transcription and the detector events of the job complete it *)
  destruct l as [url valid now|j o|j o|j o|j reply|j removed]; simpl in *.
  - unfold analyzeVideo in Hr'. destruct valid; simpl in Hr'; [|congruence].
    rewrite lookup_insert in Hr'. case_decide; simplify_eq. congruence.
  - destruct (runs s !! j) as [rnj|] eqn:Hrnj; [|congruence].
    destruct (shot rnj); try congruence.
    unfold resume_barrier, caught in Hr'.
    repeat case_match; simpl in Hr'; rewrite ?lookup_alter in Hr';
      repeat case_decide; simplify_eq; try congruence;
      rewrite ?Hr in Hr'; simpl in Hr'; simplify_eq; simpl in Hdone; congruence.
  - destruct (runs s !! j) as [rnj|] eqn:Hrnj; [|congruence].
    destruct (audio rnj); try congruence.
    destruct o; unfold resume_barrier, caught in Hr';
      repeat case_match; simpl in Hr'; rewrite ?lookup_alter in Hr';
      repeat case_decide; simplify_eq; try congruence;
      rewrite ?Hr in Hr'; simpl in Hr'; simplify_eq; simpl in Hdone; congruence.
  - destruct (runs s !! j) as [rnj|] eqn:Hrnj; [|congruence].
    destruct (phase rnj) eqn:Hphj; try congruence.
    destruct o; unfold resume_transcribed, finish, caught in *;
      repeat case_match; simpl in *; rewrite ?lookup_alter in Hr';
      repeat case_decide; simplify_eq; try congruence;
      rewrite ?Hr in Hr'; simpl in Hr'; simplify_eq; simpl in Hdone; try congruence;
      apply Hfile; congruence.
  - destruct (runs s !! j) as [rnj|] eqn:Hrnj; [|congruence].
    destruct (phase rnj) eqn:Hphj; try congruence.
    unfold resume_classified, finish in *.
    destruct (getAIProbability_finish _ _ _). simpl in *.
    rewrite lookup_alter in Hr'. case_decide; simplify_eq; [|congruence].
    apply Hfile. congruence.
  - unfold unlink_settled in Hr'. case_match; simpl in Hr'; congruence.
Qed.

(** A record enters the store in state [processing]. *)
Lemma born_processing s l (id : nat) r' :
  results s !! id = None → results (step s l) !! id = Some r' →
  status r' = st_processing.
Proof.
  intros Hnone Hr'.
  destruct l as [url valid now|j o|j o|j o|j reply|j removed]; simpl in *.
  - unfold analyzeVideo in Hr'. destruct valid; simpl in Hr'; [|congruence].
    rewrite lookup_insert in Hr'. case_decide; simplify_eq; try done; congruence.
  - destruct (runs s !! j) as [rnj|]; [|congruence].
    destruct (shot rnj); try congruence.
    unfold resume_barrier, caught in Hr'.
    repeat case_match; simpl in Hr'; rewrite ?lookup_alter in Hr';
      repeat case_decide; simplify_eq; try congruence;
      rewrite ?Hnone in Hr'; simpl in Hr'; congruence.
  - destruct (runs s !! j) as [rnj|]; [|congruence].
    destruct (audio rnj); try congruence.
    destruct o; unfold resume_barrier, caught in Hr';
      repeat case_match; simpl in Hr'; rewrite ?lookup_alter in Hr';
      repeat case_decide; simplify_eq; try congruence;
      rewrite ?Hnone in Hr'; simpl in Hr'; congruence.
  - destruct (runs s !! j) as [rnj|]; [|congruence].
    destruct (phase rnj); try congruence.
    destruct o; unfold resume_transcribed, finish, caught in *;
      repeat case_match; simpl in *; rewrite ?lookup_alter in Hr';
      repeat case_decide; simplify_eq; try congruence;
      rewrite ?Hnone in Hr'; simpl in Hr'; congruence.
  - destruct (runs s !! j) as [rnj|]; [|congruence].
    destruct (phase rnj); try congruence.
    unfold resume_classified, finish in *.
    destruct (getAIProbability_finish _ _ _). simpl in *.
    rewrite lookup_alter in Hr'. case_decide; simplify_eq; try congruence.
    rewrite Hnone in Hr'. simpl in Hr'. congruence.
  - unfold unlink_settled in Hr'. case_match; simpl in Hr'; congruence.
Qed.

(** Until its deletion settles well, the file of a completed job is on
    disk. *)
Lemma file_stays_until_unlinked ls : ∀ (id : nat) r,
  UnlinkSettled id true ∉ ls →
  results (run init ls) !! id = Some r → status r = st_completed →
  outputPath id ∈ files (run init ls).
Proof.
  induction ls as [|l ls IH] using rev_ind; intros id r Hnot Hr Hdone; [done|].
  rewrite run_app in *. simpl in *.
  apply not_elem_of_app in Hnot as [Hls Hl].
  apply not_elem_of_cons in Hl as [Hl _].
  pose proof (run_inv ls) as Hinv.
  destruct (results (run init ls) !! id) as [r0|] eqn:Hr0.
  - destruct (decide (status r0 = st_processing)) as [Hproc|Hterm].
    + destruct (inv_job _ Hinv id r0 Hr0) as [_ [rn [Hrn Hok]]].
      apply (completing_step_file _ _ _ rn r); try done.
      job_cases Hok; congruence.
    + assert (r = r0) as ->.
      { pose proof (terminal_step _ l id r0 Hinv Hr0 Hterm). congruence. }
      apply step_keeps_file; [congruence|].
      by apply (IH id r0).
  - pose proof (born_processing _ _ _ _ Hr0 Hr). congruence.
Qed.

(** The audio file of a completed job does not come back. *)
Lemma file_stays_gone ls : ∀ s (id : nat) r,
  inv s → results s !! id = Some r → status r = st_completed →
  outputPath id ∉ files s → outputPath id ∉ files (run s ls).
Proof.
  induction ls as [|l ls IH]; intros s id r Hinv Hr Hdone Hgone; [done|].
  simpl. apply (IH _ id r).
  - by apply step_inv.
  - apply terminal_step; [done | done | congruence].
  - done.
  - intros Hfile. apply step_files in Hfile as [?|(j & rn & -> & Hrn & Haudio & Hpath)];
      [done|].
    apply outputPath_inj in Hpath as <-.
    destruct (job_of_run s id rn Hinv Hrn) as [r0 [Hr0 [_ Hok]]].
    assert (r0 = r) as -> by congruence.
    job_cases Hok; try destruct Hun as (Hproc & _); congruence.
Qed.

(** X17.  The deletion of the audio file on the success path is started
    but not awaited, and its failure is swallowed.  For a completed job
    [fs.unlink] was called on its file; in the state in which a job becomes
    [completed] its file is still on disk, and it stays there as long as no
    deletion of it has settled well; a deletion that fails changes nothing;
    once the deletion has settled well the file is off the disk in every
    later state. *)
Theorem completed_job_audio_file_cleanup :
  (∀ ls (id : nat) r,
     results (run init ls) !! id = Some r → status r = st_completed →
     unlinked (outputPath id) (log (run init ls)) = true) ∧
  (∀ ls (id : nat) rn l r',
     runs (run init ls) !! id = Some rn → phase rn ≠ Returned →
     results (step (run init ls) l) !! id = Some r' → status r' = st_completed →
     outputPath id ∈ files (step (run init ls) l)) ∧
  (∀ ls (id : nat) r,
     UnlinkSettled id true ∉ ls →
     results (run init ls) !! id = Some r → status r = st_completed →
     outputPath id ∈ files (run init ls)) ∧
  (∀ s (id : nat), step s (UnlinkSettled id false) = s) ∧
  (∀ ls ls' (id : nat) r,
     results (run init ls) !! id = Some r → status r = st_completed →
     outputPath id ∉ files (run init (ls ++ UnlinkSettled id true :: ls'))).
Proof.
  split; [|split; [|split; [|split]]].
  - intros ls id r. apply completed_unlink_called, run_inv.
  - intros ls id rn l r'. apply completing_step_file, run_inv.
  - intros ls. apply file_stays_until_unlinked.
  - intros s id. simpl. by unfold unlink_settled.
  - intros ls ls' id r Hr Hdone.
    rewrite run_app, run_cons.
    apply (file_stays_gone ls' _ id r).
    + by apply step_inv, run_inv.
    + apply terminal_step; [apply run_inv | done | congruence].
    + done.
    + simpl. unfold unlink_settled.
      rewrite (completed_unlink_called _ id r (run_inv ls) Hr Hdone). simpl.
      rewrite elem_of_difference, elem_of_singleton. intros [_ H]. by apply H.
Qed.

Lemma completed_job_audio_file_cleanup_witness :
  unlinked "temp/0.wav" (log (run init spoken_run)) = true ∧
  "temp/0.wav" ∈ files (run init spoken_run) ∧
  "temp/0.wav" ∈ files (run init (spoken_run ++ [UnlinkSettled 0 false])) ∧
  ("temp/0.wav" ∉ files (run init (spoken_run ++ UnlinkSettled 0 true :: silent_run))).
Proof.
  split; [|split; [|split]].
  - eapply (proj1 completed_job_audio_file_cleanup spoken_run 0%nat).
    + vm_compute. reflexivity.
    + reflexivity.
  - eapply (proj1 (proj2 completed_job_audio_file_cleanup) (removelast spoken_run) 0%nat
              _ (Transcribed 0 (SpeechText speech))).
    + vm_compute. reflexivity.
    + discriminate.
    + vm_compute. reflexivity.
    + reflexivity.
  - eapply (proj1 (proj2 (proj2 completed_job_audio_file_cleanup))
              (spoken_run ++ [UnlinkSettled 0 false])%list 0%nat).
    + unfold spoken_run. rewrite !elem_of_app, !elem_of_cons, elem_of_nil.
      intros H. repeat destruct H as [H|H]; try discriminate H; done.
    + vm_compute. reflexivity.
    + reflexivity.
  - eapply (proj2 (proj2 (proj2 (proj2 completed_job_audio_file_cleanup)))
              spoken_run silent_run 0%nat).
    + vm_compute. reflexivity.
    + reflexivity.
Defined.

(* ===================================================================== *)
(** ** getResult and the controller                                      *)
(* ===================================================================== *)

Lemma getResult_answer s (id : nat) r :
  results s !! id = Some r → getResult s id = answer r.
Proof. intros H. unfold getResult, answer. by rewrite H. Qed.

Lemma record_stays s ls (id : nat) r :
  results s !! id = Some r → (id < next_id s)%nat →
  ∃ r', results (run s ls) !! id = Some r' ∧ (id < next_id (run s ls))%nat.
Proof.
  revert s r. induction ls as [|l ls IH]; intros s r Hr Hlt; [eauto|].
  destruct (step_identity s l id r Hr Hlt) as (r1 & Hr1 & _).
  pose proof (step_next_id s l). simpl. eapply IH; [done | lia].
Qed.

Lemma getResult_wait_exit sleeps : ∀ (id : nat) startTime held now s r a,
  results s !! id = Some r → (id < next_id s)%nat →
  getResult_wait id startTime held now s sleeps = Some a →
  ∃ k, (k <= length sleeps)%nat ∧
    a = getResult (run s (events_of k sleeps)) id ∧
    (a = TimedOut → (180000 <= clock_at k now sleeps - startTime)%Z).
Proof.
  induction sleeps as [|[events now1] rest IH];
    intros id startTime held now s r a Hr Hlt; simpl; rewrite Hr; simpl.
  - destruct (bool_decide (status r = st_processing) && (now - startTime <? 180000)%Z)
      eqn:Hcond; [done|].
    intros [= <-]. exists 0%nat. split; [done|].
    split; [unfold events_of; simpl; by rewrite (getResult_answer s id r)|].
    unfold answer. destruct (status r) eqn:Hst; try done. intros _.
    rewrite bool_decide_eq_true_2 in Hcond by done. simpl in Hcond.
    apply Z.ltb_ge in Hcond. simpl. lia.
  - destruct (bool_decide (status r = st_processing) && (now - startTime <? 180000)%Z)
      eqn:Hcond.
    + intros Hwait.
      destruct (record_stays s events id r Hr Hlt) as (r1 & Hr1 & Hlt1).
      destruct (IH id startTime r now1 (run s events) r1 a Hr1 Hlt1 Hwait)
        as (k & Hk & Ha & Ht).
      exists (S k). split; [lia|]. split; [|done].
      unfold events_of in *. simpl. by rewrite run_app.
    + intros [= <-]. exists 0%nat. split; [lia|].
      split; [unfold events_of; simpl; by rewrite (getResult_answer s id r)|].
      unfold answer. destruct (status r) eqn:Hst; try done. intros _.
      rewrite bool_decide_eq_true_2 in Hcond by done. simpl in Hcond.
      apply Z.ltb_ge in Hcond. simpl. lia.
Qed.

(** X18.  When a call of [getResult] on a known identifier returns, its
    answer is the one read off the store as it is at the last check of the
    loop (the state after the events of the first k sleeps), never an
    older one; and it reports a timeout only when the clock at that check
    is at least 180000 ms past the start. *)
Theorem getResult_answers_from_last_check ls (id : nat) r startTime sleeps a :
  results (run init ls) !! id = Some r →
  getResult_call id startTime (run init ls) sleeps = Some a →
  ∃ k, (k <= length sleeps)%nat ∧
    a = getResult (run init (ls ++ events_of k sleeps)) id ∧
    (a = TimedOut → (180000 <= clock_at k startTime sleeps - startTime)%Z).
Proof.
  intros Hr Hcall. unfold getResult_call in Hcall. rewrite Hr in Hcall.
  pose proof (in_store_lt _ id r (run_inv ls) Hr) as Hlt.
  destruct (getResult_wait_exit sleeps id startTime r startTime _ r a Hr Hlt Hcall)
    as (k & Hk & Ha & Ht).
  exists k. by rewrite run_app.
Qed.

Lemma getResult_answers_from_last_check_witness :
  ∃ k, (k <= 2)%nat ∧
    Failed (Some "ffmpeg exited with code 1")
    = getResult (run init ([Submit "https://youtu.be/v" true 0]
                           ++ events_of k [([], 1000%Z); (tl audio_failure_run, 2000%Z)]))
        0%nat ∧
    (Failed (Some "ffmpeg exited with code 1") = TimedOut →
     (180000 <= clock_at k 0 [([], 1000%Z); (tl audio_failure_run, 2000%Z)] - 0)%Z).
Proof.
  eapply (getResult_answers_from_last_check [Submit "https://youtu.be/v" true 0] 0%nat
            _ 0%Z [([], 1000%Z); (tl audio_failure_run, 2000%Z)]).
  - vm_compute. reflexivity.
  - vm_compute. reflexivity.
Defined.

Lemma getResult_wait_bounded sleeps : ∀ (id : nat) startTime held now s,
  ticking now sleeps →
  (180000 <= now - startTime + 1000 * Z.of_nat (length sleeps))%Z →
  is_Some (getResult_wait id startTime held now s sleeps).
Proof.
  induction sleeps as [|[events now1] rest IH];
    intros id startTime held now s Htick Hlen; simpl in *.
  - destruct (bool_decide _ && (now - startTime <? 180000)%Z) eqn:Hcond; [|by eexists].
    apply andb_true_iff in Hcond as [_ Hcond]. apply Z.ltb_lt in Hcond. lia.
  - destruct (bool_decide _ && (now - startTime <? 180000)%Z); [|by eexists].
    destruct Htick as [Hstep Htick]. apply IH; [done | lia].
Qed.

(** X19.  [getResult] does not wait for ever: if every sleep of its loop
    lasts at least 1000 ms, the call has returned after at most 180
    sleeps, whatever happens to the job. *)
Theorem getResult_returns_within_180_sleeps (id : nat) startTime s sleeps :
  ticking startTime sleeps → (180 <= length sleeps)%nat →
  is_Some (getResult_call id startTime s sleeps).
Proof.
  intros Htick Hlen. unfold getResult_call.
  destruct (results s !! id) as [r|]; [|by eexists].
  apply getResult_wait_bounded; [done | lia].
Qed.

Lemma getResult_returns_within_180_sleeps_witness :
  is_Some (getResult_call 0 0 (run init [Submit "https://youtu.be/v" true 0])
             (map (fun k => ([], 1000 * Z.of_nat (S k))%Z) (seq 0 180))).
Proof.
  apply getResult_returns_within_180_sleeps.
  - vm_compute. repeat (split; [discriminate|]). exact I.
  - vm_compute. lia.
Defined.

(** X20.  The status endpoint never reports [processing] or [error] in a
    body: in every reachable state its body, when it sends one, has the
    status [completed] and no error field.  A job still in [processing]
    gets the message "Analysis timeout", a failed job the message
    "Analysis failed: " followed by the stored detail, an unknown
    identifier "Analysis not found". *)
Theorem status_endpoint_reports_completed_only ls (id : nat) :
  match controller_getStatus (getResult (run init ls) id) with
  | Ok (st, err) =>
      st = st_completed ∧ err = None ∧
      ∃ r, results (run init ls) !! id = Some r ∧ status r = st_completed
  | BadRequest message =>
      (message = "Analysis not found" ∧ results (run init ls) !! id = None)
      ∨ (message = "Analysis timeout" ∧
         ∃ r, results (run init ls) !! id = Some r ∧ status r = st_processing)
      ∨ (∃ r detail, results (run init ls) !! id = Some r ∧ status r = st_error ∧
                     error r = Some detail ∧
                     message = "Analysis failed: " ++ detail)
  end.
Proof.
  unfold controller_getStatus, controller_getResult, getResult.
  destruct (results (run init ls) !! id) as [r|] eqn:Hr; [|by left].
  destruct (inv_job _ (run_inv ls) id r Hr) as [_ [rn [_ Hok]]].
  job_cases Hok; try destruct Hun as (Hst & Her & _); rewrite Hst; simpl.
  - right. left. eauto.
  - right. left. eauto.
  - right. left. eauto.
  - right. right. exists r, m. rewrite Her. done.
  - right. right. exists r, m. rewrite Her. done.
  - eauto.
Qed.

(* ===================================================================== *)
(** ** Two jobs with the same text, in flight together                   *)
(* ===================================================================== *)

Lemma transcribed_asks s (id : nat) rn audioPath t w ws h :
  runs s !! id = Some rn → phase rn = AtTranscribe audioPath →
  words_of t = w :: ws →
  getAIProbability_start (joined_text (w :: ws)) (cache s) = Asked h →
  let s' := step s (Transcribed id (SpeechText t)) in
  cache s' = cache s ∧ results s' = results s ∧
  runs s' = <[id := set_phase (AtClassify audioPath (w :: ws) h) rn]> (runs s) ∧
  log s' = EvRequest id (joined_text (w :: ws))
           :: EvClassify id (joined_text (w :: ws)) :: log s.
Proof.
  intros Hrn Hph Hw Hstart. simpl. rewrite Hrn, Hph.
  unfold resume_transcribed. rewrite Hw, Hstart. done.
Qed.

Lemma classified_finishes s (id : nat) rn audioPath ws h label :
  runs s !! id = Some rn → phase rn = AtClassify audioPath ws h →
  let s' := step s (Classified id (Reply label)) in
  cache s' = <[h := label_probability label]> (cache s) ∧
  results s' = alter (write_completed (segments_of (label_probability label) ws)) id
                 (results s) ∧
  runs s' = <[id := set_phase Returned rn]> (runs s).
Proof. intros Hrn Hph. simpl. rewrite Hrn, Hph. done. Qed.

Lemma no_request_before_transcription s (id : nat) rn audioPath :
  inv s → runs s !! id = Some rn → phase rn = AtTranscribe audioPath →
  detector_requests id (log s) = [].
Proof.
  intros Hinv Hrn Hphase.
  destruct (job_of_run s id rn Hinv Hrn) as [r [_ [_ Hok]]].
  job_cases Hok; try congruence.
  by rewrite <- detector_requests_job_log, Hjl.
Qed.

(** X21.  The cache does not coalesce requests in flight.  When two jobs
    reach the classification with the same text before either reply has
    arrived, both miss the cache and both send a request; the replies are
    then written one over the other, so the cache keeps the later reply,
    and the two jobs can carry different probabilities for the same
    text. *)
Theorem concurrent_misses_both_ask ls (i j : nat) ri rj rni rnj pathi pathj
    t w ws h label1 label2 :
  i ≠ j →
  results (run init ls) !! i = Some ri → results (run init ls) !! j = Some rj →
  runs (run init ls) !! i = Some rni → phase rni = AtTranscribe pathi →
  runs (run init ls) !! j = Some rnj → phase rnj = AtTranscribe pathj →
  words_of t = w :: ws →
  getAIProbability_start (joined_text (w :: ws)) (cache (run init ls)) = Asked h →
  let s2 := run (run init ls)
              [Transcribed i (SpeechText t); Transcribed j (SpeechText t)] in
  let s4 := run s2 [Classified i (Reply label1); Classified j (Reply label2)] in
  detector_requests i (log s2) = [joined_text (w :: ws)] ∧
  detector_requests j (log s2) = [joined_text (w :: ws)] ∧
  cache s4 !! h = Some (label_probability label2) ∧
  (∃ r, results s4 !! i = Some r ∧
        transcript r = segments_of (label_probability label1) (w :: ws)) ∧
  (∃ r, results s4 !! j = Some r ∧
        transcript r = segments_of (label_probability label2) (w :: ws)).
Proof.
  intros Hij Hri Hrj Hrni Hphi Hrnj Hphj Hw Hstart s2 s4.
  set (s := run init ls) in *.
  pose proof (run_inv ls) as Hinv. fold s in Hinv.
  (* nothing of either job is in the log yet *)
  assert (detector_requests i (log s) = [] ∧ detector_requests j (log s) = [])
    as [Hlogi Hlogj].
  { split; eapply no_request_before_transcription; eauto. }
  (* first job asks *)
  destruct (transcribed_asks s i rni pathi t w ws h Hrni Hphi Hw Hstart)
    as (Hc1 & Hres1 & Hrun1 & Hlog1).
  set (s1 := step s (Transcribed i (SpeechText t))) in *.
  (* second job asks as well *)
  assert (runs s1 !! j = Some rnj) as Hrnj1.
  { by rewrite Hrun1, lookup_insert_ne. }
  assert (getAIProbability_start (joined_text (w :: ws)) (cache s1) = Asked h)
    as Hstart1 by (by rewrite Hc1).
  destruct (transcribed_asks s1 j rnj pathj t w ws h Hrnj1 Hphj Hw Hstart1)
    as (Hc2 & Hres2 & Hrun2 & Hlog2).
  change (step s1 (Transcribed j (SpeechText t))) with s2 in *.
  (* the two replies *)
  assert (runs s2 !! i = Some (set_phase (AtClassify pathi (w :: ws) h) rni)) as Hrni2.
  { by rewrite Hrun2, lookup_insert_ne, Hrun1, lookup_insert_eq. }
  destruct (classified_finishes s2 i _ pathi (w :: ws) h label1 Hrni2 eq_refl)
    as (Hc3 & Hres3 & Hrun3).
  set (s3 := step s2 (Classified i (Reply label1))) in *.
  assert (runs s3 !! j = Some (set_phase (AtClassify pathj (w :: ws) h) rnj)) as Hrnj3.
  { by rewrite Hrun3, lookup_insert_ne, Hrun2, lookup_insert_eq. }
  destruct (classified_finishes s3 j _ pathj (w :: ws) h label2 Hrnj3 eq_refl)
    as (Hc4 & Hres4 & Hrun4).
  change (step s3 (Classified j (Reply label2))) with s4 in *.
  split; [|split; [|split; [|split]]].
  - rewrite Hlog2, Hlog1. simpl.
    rewrite decide_False, decide_True by done. by rewrite Hlogi.
  - rewrite Hlog2, Hlog1. simpl.
    rewrite decide_True, decide_False by done. by rewrite Hlogj.
  - by rewrite Hc4, lookup_insert_eq.
  - eexists. rewrite Hres4, lookup_alter_ne, Hres3, lookup_alter_eq, Hres2, Hres1, Hri
      by done.
    split; reflexivity.
  - eexists. rewrite Hres4, lookup_alter_eq, Hres3, lookup_alter_ne, Hres2, Hres1, Hrj
      by done.
    split; reflexivity.
Qed.

Lemma concurrent_misses_both_ask_witness :
  let s2 := run (run init two_jobs_run)
              [Transcribed 0 (SpeechText long_speech);
               Transcribed 1 (SpeechText long_speech)] in
  let s4 := run s2 [Classified 0 (Reply (Some 0%Z)); Classified 1 (Reply (Some 1%Z))] in
  detector_requests 0 (log s2) = [joined_text [spoken long_text; spoken "indeed"]] ∧
  detector_requests 1 (log s2) = [joined_text [spoken long_text; spoken "indeed"]] ∧
  cache s4 !! hashString (joined_text [spoken long_text; spoken "indeed"])
  = Some (label_probability (Some 1%Z)) ∧
  (∃ r, results s4 !! 0%nat = Some r ∧
        transcript r = segments_of (label_probability (Some 0%Z))
                         [spoken long_text; spoken "indeed"]) ∧
  (∃ r, results s4 !! 1%nat = Some r ∧
        transcript r = segments_of (label_probability (Some 1%Z))
                         [spoken long_text; spoken "indeed"]).
Proof.
  eapply (concurrent_misses_both_ask two_jobs_run 0%nat 1%nat _ _ _ _
            (outputPath 0) (outputPath 1) long_speech).
  - lia.
  - vm_compute. reflexivity.
  - vm_compute. reflexivity.
  - vm_compute. reflexivity.
  - reflexivity.
  - vm_compute. reflexivity.
  - reflexivity.
  - reflexivity.
  - vm_compute. reflexivity.
Defined.

(* ===================================================================== *)
(** ** Every job ends                                                    *)
(* ===================================================================== *)

Lemma run_advanced_refl rn : run_advanced rn rn.
Proof. by repeat split. Qed.

Lemma run_advanced_trans rn1 rn2 rn3 :
  run_advanced rn1 rn2 → run_advanced rn2 rn3 → run_advanced rn1 rn3.
Proof. intros (?&?&?) (?&?&?). repeat split; [lia | auto | auto]. Qed.

Ltac advanced_by_cases :=
  unfold run_advanced; simpl;
  repeat match goal with H : phase _ = _ |- _ => rewrite H end;
  repeat match goal with H : shot _ = _ |- _ => rewrite H end;
  repeat match goal with H : audio _ = _ |- _ => rewrite H end;
  simpl; repeat split; intros; try lia; try done.

Lemma step_advances s l (id : nat) rn :
  runs s !! id = Some rn → (id < next_id s)%nat →
  ∃ rn', runs (step s l) !! id = Some rn' ∧ run_advanced rn rn'.
Proof.
  intros Hrn Hlt.
  assert (foreign id l → ∃ rn', runs (step s l) !! id = Some rn' ∧ run_advanced rn rn')
    as Hforeign.
  { intros Hf. destruct (step_foreign s l id Hlt Hf) as [_ H].
    exists rn. split; [by rewrite H | apply run_advanced_refl]. }
  destruct l as [url valid now|j o|j o|j o|j reply|j removed];
    try (by apply Hforeign);
    try (exists rn; split; [|apply run_advanced_refl];
         simpl; unfold unlink_settled; by case_match);
    (destruct (decide (j = id)) as [->|Hne]; [|by apply Hforeign]);
    simpl; rewrite Hrn.
  - (* ThumbnailSettled *)
    destruct (shot rn) eqn:Hshot;
      try (exists rn; split; [done | apply run_advanced_refl]).
    unfold resume_barrier, caught. simpl.
    destruct (phase rn) eqn:Hph; simpl;
      [destruct (audio rn) eqn:Haudio; simpl|..];
      rewrite lookup_insert_eq; (eexists; split; [reflexivity|]);
      advanced_by_cases.
  - (* AudioSettled *)
    destruct (audio rn) eqn:Haudio;
      try (exists rn; split; [done | apply run_advanced_refl]).
    destruct o; unfold resume_barrier, caught; simpl;
      (destruct (phase rn) eqn:Hph; simpl;
       [destruct (shot rn) eqn:Hshot; simpl|..]);
      rewrite lookup_insert_eq; (eexists; split; [reflexivity|]);
      advanced_by_cases.
  - (* Transcribed *)
    destruct (phase rn) eqn:Hph;
      try (exists rn; split; [done | apply run_advanced_refl]).
    destruct o; unfold resume_transcribed, caught, finish; simpl;
      repeat case_match; simpl;
      rewrite lookup_insert_eq; (eexists; split; [reflexivity|]);
      advanced_by_cases.
  - (* Classified *)
    destruct (phase rn) eqn:Hph;
      try (exists rn; split; [done | apply run_advanced_refl]).
    unfold resume_classified, finish.
    destruct (getAIProbability_finish _ _ _). simpl.
    rewrite lookup_insert_eq. (eexists; split; [reflexivity|]).
    advanced_by_cases.
Qed.

Lemma run_advances ls : ∀ s (id : nat) rn,
  runs s !! id = Some rn → (id < next_id s)%nat →
  ∃ rn', runs (run s ls) !! id = Some rn' ∧ run_advanced rn rn' ∧
         (id < next_id (run s ls))%nat.
Proof.
  induction ls as [|l ls IH]; intros s id rn Hrn Hlt.
  - exists rn. split; [done|]. split; [apply run_advanced_refl | done].
  - destruct (step_advances s l id rn Hrn Hlt) as (rn1 & Hrn1 & Hadv1).
    pose proof (step_next_id s l) as Hle.
    destruct (IH (step s l) id rn1 Hrn1) as (rn2 & Hrn2 & Hadv2 & Hlt2); [lia|].
    exists rn2. split; [done|]. split; [by eapply run_advanced_trans | done].
Qed.

Lemma thumbnail_settles s (id : nat) rn o :
  runs s !! id = Some rn →
  ∃ rn', runs (step s (ThumbnailSettled id o)) !! id = Some rn' ∧
         shot rn' ≠ Pending.
Proof.
  intros Hrn. simpl. rewrite Hrn.
  destruct (shot rn) eqn:Hshot; try (exists rn; by rewrite Hrn, Hshot).
  unfold resume_barrier, caught. simpl.
  repeat case_match; simpl; rewrite lookup_insert_eq;
    (eexists; split; [reflexivity | done]).
Qed.

Lemma audio_settles s (id : nat) rn o :
  runs s !! id = Some rn →
  ∃ rn', runs (step s (AudioSettled id o)) !! id = Some rn' ∧
         audio rn' ≠ Pending.
Proof.
  intros Hrn. simpl. rewrite Hrn.
  destruct (audio rn) eqn:Haudio; try (exists rn; by rewrite Hrn, Haudio).
  destruct o; unfold resume_barrier, caught; simpl;
    repeat case_match; simpl; rewrite lookup_insert_eq;
    (eexists; split; [reflexivity | done]).
Qed.

Lemma transcription_settles s (id : nat) rn o :
  runs s !! id = Some rn → (1 <= phase_rank (phase rn))%nat →
  ∃ rn', runs (step s (Transcribed id o)) !! id = Some rn' ∧
         (2 <= phase_rank (phase rn'))%nat.
Proof.
  intros Hrn Hrank. simpl. rewrite Hrn.
  destruct (phase rn) eqn:Hph; simpl in Hrank; try lia;
    try (exists rn; rewrite Hrn, Hph; simpl; split; [done | lia]).
  destruct o; unfold resume_transcribed, caught, finish; simpl;
    repeat case_match; simpl; rewrite lookup_insert_eq;
    (eexists; split; [reflexivity | simpl; lia]).
Qed.

Lemma classification_settles s (id : nat) rn reply :
  runs s !! id = Some rn → (2 <= phase_rank (phase rn))%nat →
  ∃ rn', runs (step s (Classified id reply)) !! id = Some rn' ∧
         phase rn' = Returned.
Proof.
  intros Hrn Hrank. simpl. rewrite Hrn.
  destruct (phase rn) eqn:Hph; simpl in Hrank; try lia;
    try (exists rn; by rewrite Hrn, Hph).
  unfold resume_classified, finish.
  destruct (getAIProbability_finish _ _ _). simpl. rewrite lookup_insert_eq.
  eexists. split; [reflexivity | done].
Qed.

Lemma settled_is_past_barrier s (id : nat) rn :
  inv s → runs s !! id = Some rn →
  shot rn ≠ Pending → audio rn ≠ Pending → (1 <= phase_rank (phase rn))%nat.
Proof.
  intros Hinv Hrn Hshot Haudio.
  destruct (job_of_run s id rn Hinv Hrn) as [r [_ [_ Hok]]].
  job_cases Hok; rewrite Hph; simpl; try lia.
  destruct (shot rn), (audio rn); done.
Qed.

(** X22.  Every job ends.  Once the thumbnail capture, the audio
    extraction, the transcription and the detector have each settled for
    a job, in this order of the last two and with any outcome, the job is
    [completed] or [error]; whatever other events, for this or for other
    jobs, come in between or after. *)
Theorem job_ends_when_its_calls_have_settled ls (id : nat) r first second
    capture extraction speech reply ls1 ls2 ls3 ls4 :
  results (run init ls) !! id = Some r →
  (first = ThumbnailSettled id capture ∧ second = AudioSettled id extraction
   ∨ first = AudioSettled id extraction ∧ second = ThumbnailSettled id capture) →
  ∃ r',
    results (run init (ls ++ first :: ls1 ++ second :: ls2
                          ++ Transcribed id speech :: ls3
                          ++ Classified id reply :: ls4)) !! id = Some r' ∧
    status r' ≠ st_processing.
Proof.
  intros Hr Horder.
  pose proof (in_store_lt _ id r (run_inv ls) Hr) as Hlt.
  destruct (inv_job _ (run_inv ls) id r Hr) as [_ [rn [Hrn _]]].
  set (l1 := (ls ++ [first])%list).
  set (l2 := (l1 ++ ls1 ++ [second])%list).
  set (l3 := (l2 ++ ls2 ++ [Transcribed id speech])%list).
  set (l4 := (l3 ++ ls3 ++ [Classified id reply])%list).
  replace (ls ++ first :: ls1 ++ second :: ls2 ++ Transcribed id speech :: ls3
              ++ Classified id reply :: ls4)%list with (l4 ++ ls4)%list
    by (subst l1 l2 l3 l4; by rewrite <- !app_assoc).
  (* both acquisition promises are settled after the second event *)
  assert (∃ rn2, runs (run init l2) !! id = Some rn2 ∧
                 shot rn2 ≠ Pending ∧ audio rn2 ≠ Pending ∧
                 (id < next_id (run init l2))%nat) as (rn2 & Hrn2 & Hs2 & Ha2 & Hlt2).
  { subst l2 l1. rewrite !run_app.
    destruct Horder as [[-> ->]|[-> ->]].
    - destruct (thumbnail_settles _ id rn capture Hrn) as (rna & Hrna & Hsa).
      pose proof (step_next_id (run init ls) (ThumbnailSettled id capture)) as Hle.
      destruct (run_advances ls1 _ id rna Hrna) as (rnb & Hrnb & (_ & Hsb & _) & Hltb);
        [lia|].
      destruct (audio_settles _ id rnb extraction Hrnb) as (rnc & Hrnc & Hac).
      destruct (step_advances _ (AudioSettled id extraction) id rnb Hrnb Hltb)
        as (rnc' & Hrnc' & (_ & Hsc & _)).
      rewrite Hrnc in Hrnc'. injection Hrnc' as <-.
      pose proof (step_next_id (run (run init ls) ([ThumbnailSettled id capture] ++ ls1)%list)
                    (AudioSettled id extraction)) as Hle'.
      exists rnc. simpl in *. repeat split; auto; lia.
    - destruct (audio_settles _ id rn extraction Hrn) as (rna & Hrna & Haa).
      pose proof (step_next_id (run init ls) (AudioSettled id extraction)) as Hle.
      destruct (run_advances ls1 _ id rna Hrna) as (rnb & Hrnb & (_ & _ & Hab) & Hltb);
        [lia|].
      destruct (thumbnail_settles _ id rnb capture Hrnb) as (rnc & Hrnc & Hsc).
      destruct (step_advances _ (ThumbnailSettled id capture) id rnb Hrnb Hltb)
        as (rnc' & Hrnc' & (_ & _ & Hac)).
      rewrite Hrnc in Hrnc'. injection Hrnc' as <-.
      pose proof (step_next_id (run (run init ls) ([AudioSettled id extraction] ++ ls1)%list)
                    (ThumbnailSettled id capture)) as Hle'.
      exists rnc. simpl in *. repeat split; auto; lia. }
  pose proof (settled_is_past_barrier _ id rn2 (run_inv l2) Hrn2 Hs2 Ha2) as Hrank2.
  (* the transcription settles *)
  assert (∃ rn3, runs (run init l3) !! id = Some rn3 ∧
                 (2 <= phase_rank (phase rn3))%nat ∧
                 (id < next_id (run init l3))%nat) as (rn3 & Hrn3 & Hrank3 & Hlt3).
  { subst l3. rewrite !run_app.
    destruct (run_advances ls2 _ id rn2 Hrn2 Hlt2) as (rna & Hrna & (Hra & _) & Hlta).
    destruct (transcription_settles _ id rna speech Hrna) as (rnb & Hrnb & Hrb); [lia|].
    pose proof (step_next_id (run (run init l2) ls2) (Transcribed id speech)) as Hle.
    exists rnb. simpl in *. repeat split; auto; lia. }
  (* the detector settles *)
  assert (∃ rn4, runs (run init l4) !! id = Some rn4 ∧ phase rn4 = Returned ∧
                 (id < next_id (run init l4))%nat) as (rn4 & Hrn4 & Hph4 & Hlt4).
  { subst l4. rewrite !run_app.
    destruct (run_advances ls3 _ id rn3 Hrn3 Hlt3) as (rna & Hrna & (Hra & _) & Hlta).
    destruct (classification_settles _ id rna reply Hrna) as (rnb & Hrnb & Hrb); [lia|].
    pose proof (step_next_id (run (run init l3) ls3) (Classified id reply)) as Hle.
    exists rnb. simpl in *. repeat split; auto; lia. }
  (* a returned run has written a terminal status, for good *)
  destruct (job_of_run _ id rn4 (run_inv l4) Hrn4) as [r4 [Hr4 [_ Hok]]].
  assert (status r4 ≠ st_processing) as Hterm.
  { job_cases Hok; try congruence. }
  exists r4. split; [|done].
  rewrite run_app. by apply terminal_run; [apply run_inv | |].
Qed.

Lemma job_ends_when_its_calls_have_settled_witness :
  ∃ r',
    results (run init ([Submit "https://youtu.be/v" true 0]
                       ++ AudioSettled 0 AudioSaved :: []
                       ++ ThumbnailSettled 0 (CaptureFailed "timeout") :: []
                       ++ Transcribed 0 (SpeechText long_speech) :: []
                       ++ Classified 0 NoReply :: [])) !! 0%nat = Some r' ∧
    status r' ≠ st_processing.
Proof.
  eapply (job_ends_when_its_calls_have_settled [Submit "https://youtu.be/v" true 0] 0%nat
            _ (AudioSettled 0 AudioSaved) (ThumbnailSettled 0 (CaptureFailed "timeout"))
            (CaptureFailed "timeout") AudioSaved (SpeechText long_speech) NoReply
            [] [] [] []).
  - vm_compute. reflexivity.
  - right. split; reflexivity.
Defined.

(* ===================================================================== *)
(** ** The length threshold of getAIProbability                          *)
(* ===================================================================== *)

Lemma concat_length sep x xs :
  String.length (String.concat sep (x :: xs))
  = (String.length x
     + list_sum (map (fun y => String.length sep + String.length y) xs))%nat.
Proof.
  revert x. induction xs as [|y xs IH]; intros x.
  - simpl. lia.
  - change (String.concat sep (x :: y :: xs))
      with (x ++ sep ++ String.concat sep (y :: xs)).
    rewrite !string_app_length, IH. simpl. lia.
Qed.

(** X23.  The text sent to the classification is as long as the texts of
    the units together plus one separating space between neighbours; this
    is the length the 50-character threshold is applied to. *)
Theorem joined_text_length ws :
  String.length (joined_text ws)
  = (list_sum (map (fun w => String.length (unit_text w)) ws) + (length ws - 1))%nat.
Proof.
  unfold joined_text, JS.join.
  destruct ws as [|w ws]; [done|].
  simpl map. rewrite concat_length. simpl.
  induction ws as [|w' ws IH]; simpl in *; lia.
Qed.

(** X24.  A transcript whose joined text has fewer than 50 characters is
    not classified at all: when the transcription of a job returns it, the
    job completes in the same step, every segment carries 0.5, nothing is
    sent to the detector and the cache is neither read into the result nor
    changed, whatever it holds. *)
Theorem short_transcript_is_not_classified ls (id : nat) rn audioPath t :
  runs (run init ls) !! id = Some rn → phase rn = AtTranscribe audioPath →
  (String.length (joined_text (words_of t)) < 50)%nat →
  cache (step (run init ls) (Transcribed id (SpeechText t))) = cache (run init ls) ∧
  detector_requests id (log (step (run init ls) (Transcribed id (SpeechText t)))) = [] ∧
  ∃ r, results (step (run init ls) (Transcribed id (SpeechText t))) !! id = Some r ∧
       status r = st_completed ∧
       transcript r = segments_of 0.5 (words_of t).
Proof.
  intros Hrn Hphase Hshort.
  pose proof (run_inv ls) as Hinv.
  pose proof (no_request_before_transcription _ id rn audioPath Hinv Hrn Hphase) as Hlog.
  destruct (job_of_run _ id rn Hinv Hrn) as [r [Hr _]].
  simpl. rewrite Hrn, Hphase. unfold resume_transcribed.
  destruct (words_of t) as [|w ws] eqn:Hw.
  - simpl. rewrite lookup_alter_eq, Hr. simpl. rewrite Hlog.
    split; [done|]. split; [done|]. by eexists.
  - unfold getAIProbability_start.
    apply Nat.ltb_lt in Hshort. rewrite Hshort.
    simpl. rewrite lookup_alter_eq, Hr. simpl. rewrite Hlog.
    split; [done|]. split; [done|]. by eexists.
Qed.

Lemma short_transcript_is_not_classified_witness :
  ∃ r, results (step (run init (removelast spoken_run))
                  (Transcribed 0 (SpeechText speech))) !! 0%nat = Some r ∧
       status r = st_completed ∧
       transcript r = segments_of 0.5 (words_of speech).
Proof.
  apply (short_transcript_is_not_classified (removelast spoken_run) 0%nat
           {| phase := AtTranscribe (outputPath 0);
              shot := Fulfilled "https://i.ibb.co/v.png";
              audio := Fulfilled (outputPath 0) |}
           (outputPath 0) speech).
  - vm_compute. reflexivity.
  - reflexivity.
  - vm_compute. lia.
Defined.
